(** * Verification of the status-monitor incident pipeline

    A shallow embedding of the polling watcher ([src/core/watcher.py]), the
    RSS parser ([src/utils/rss_parser.py]), the adapters and their registry
    ([src/adapters/rss_adapter.py], [bolna_adapter.py], [claude_adapter.py],
    [openai_adapter.py], [registry.py]) and the formatter
    ([src/core/formatter.py]).

    Conventions of the embedding:
    - a Python [str] is a [string] (a sequence of bytes); whitespace and
      lower-casing are the ASCII ones;
    - a Python value that is either a [str] or [None] is an [option string];
    - a Python [dict] with string keys is a [gmap string (option string)];
      [d.get(k)] and [d.get(k, default)] are [get] and [get_default];
    - a Python [set] of incident ids is a [gset (option string)];
    - code that can raise returns a [result]; code that talks to the network
      is a state transformer over an abstract world [W]. *)

From Stdlib Require Import Ascii.
From stdpp Require Import gmap strings list.

(** ** Results of fallible code *)

Inductive result (A : Type) : Type :=
| Ok (a : A)
| Raise (e : string).
Arguments Ok {A} a.
Arguments Raise {A} e.

(** An effectful computation: reads and updates the outside world. *)
Definition eff (W A : Type) : Type := W → result A * W.

(** A Python dict whose values are strings or [None]. *)
Abbreviation dict := (gmap string (option string)).

(** [d.get(k)]: the value, or [None] when the key is missing. *)
Definition get (d : dict) (k : string) : option string :=
  match d !! k with
  | Some v => v
  | None => None
  end.

(** [d.get(k, default)]: the default is used only when the key is missing;
    a key that is present with value [None] yields [None]. *)
Definition get_default (d : dict) (k : string) (default : string) : option string :=
  match d !! k with
  | Some v => v
  | None => Some default
  end.

(** Python truthiness of a value that is a [str] or [None]. *)
Definition truthy (v : option string) : bool :=
  match v with
  | Some (String _ _) => true
  | _ => false
  end.

(** [a or b] on such values. *)
Definition py_or (a b : option string) : option string :=
  if truthy a then a else b.

(** ** The [str] methods the code uses *)

Module PyStr.

(** [c.isspace()] on the ASCII range: TAB, LF, VT, FF, CR, FS, GS, RS, US
    and the space. *)
Definition is_space (c : ascii) : bool :=
  let n := nat_of_ascii c in
  ((9 <=? n) && (n <=? 13)) || ((28 <=? n) && (n <=? 32)).

Fixpoint lstrip (s : string) : string :=
  match s with
  | String c s' => if is_space c then lstrip s' else s
  | EmptyString => EmptyString
  end.

Fixpoint rstrip (s : string) : string :=
  match s with
  | String c s' =>
      match rstrip s' with
      | EmptyString => if is_space c then EmptyString else String c EmptyString
      | r => String c r
      end
  | EmptyString => EmptyString
  end.

(** [s.strip()] *)
Definition strip (s : string) : string := rstrip (lstrip s).

Definition lower_char (c : ascii) : ascii :=
  let n := nat_of_ascii c in
  if (65 <=? n) && (n <=? 90) then ascii_of_nat (n + 32) else c.

(** [s.lower()] *)
Fixpoint lower (s : string) : string :=
  match s with
  | String c s' => String (lower_char c) (lower s')
  | EmptyString => EmptyString
  end.

(** [s.startswith(p)], returning the remainder of [s] after [p]. *)
Fixpoint strip_prefix (p s : string) : option string :=
  match p with
  | EmptyString => Some s
  | String a p' =>
      match s with
      | String b s' => if Ascii.eqb a b then strip_prefix p' s' else None
      | EmptyString => None
      end
  end.

(** [s.find(sub)]: the index of the first occurrence of [sub], if any. *)
Fixpoint find (sub s : string) : option nat :=
  match strip_prefix sub s with
  | Some _ => Some 0
  | None =>
      match s with
      | String _ s' => S <$> find sub s'
      | EmptyString => None
      end
  end.

(** [sub in s] *)
Definition contains (sub s : string) : bool :=
  match find sub s with
  | Some _ => true
  | None => false
  end.

Fixpoint take (n : nat) (s : string) : string :=
  match n, s with
  | S n', String c s' => String c (take n' s')
  | _, _ => EmptyString
  end.

Fixpoint drop (n : nat) (s : string) : string :=
  match n, s with
  | S n', String _ s' => drop n' s'
  | _, _ => s
  end.

(** [s.split(sep, 1)] for a non-empty separator: the text before and after
    the first occurrence of [sep], or [s] alone. *)
Definition split_once (sep s : string) : list string :=
  match find sep s with
  | Some i => [take i s; drop (i + String.length sep) s]
  | None => [s]
  end.

(** [s.split(c)] for a one-character separator. *)
Fixpoint split_char (c : ascii) (s : string) : list string :=
  match s with
  | EmptyString => [EmptyString]
  | String a s' =>
      if Ascii.eqb a c then EmptyString :: split_char c s'
      else
        match split_char c s' with
        | hd :: tl => String a hd :: tl
        | [] => [String a EmptyString]
        end
  end.

(** [parts[-1]] of a list that [split] returned. *)
Definition last_part (parts : list string) : string := List.last parts EmptyString.

(** [parts[i]] *)
Definition part (i : nat) (parts : list string) : string := nth i parts EmptyString.

(** [s.replace(c, by)] for a one-character [c]: every occurrence. *)
Fixpoint replace_char (c : ascii) (by_ : string) (s : string) : string :=
  match s with
  | EmptyString => EmptyString
  | String a s' =>
      if Ascii.eqb a c then by_ +:+ replace_char c by_ s'
      else String a (replace_char c by_ s')
  end.

End PyStr.

(** ** The fragment of [re] that the parser's pattern needs

    A pattern is a sequence of atoms: a literal, or a greedy repetition of a
    character class (with a least count), possibly captured as a group.
    Matching backtracks as [re] does: a repetition first takes the longest
    run and gives characters back one at a time while the rest of the pattern
    fails. *)

Module Re.

Inductive atom : Type :=
| Lit (s : string)
| Rep (least : nat) (cls : ascii → bool) (capture : bool).

(** Length of the longest prefix of [s] inside the class. *)
Fixpoint span (cls : ascii → bool) (s : string) : nat :=
  match s with
  | String c s' => if cls c then S (span cls s') else 0
  | EmptyString => 0
  end.

(** Greedy choice with backtracking: try the count [k], then [k - 1], down to
    [least]; the first count for which the rest of the pattern matches wins. *)
Fixpoint backtrack {A : Type} (rest : nat → option A) (least k : nat) : option A :=
  match (if least <=? k then rest k else None) with
  | Some m => Some m
  | None =>
      match k with
      | S k' => backtrack rest least k'
      | 0 => None
      end
  end.

(** Match the pattern at the start of [s]: the captured groups and the text
    left after the match. *)
Fixpoint match_here (p : list atom) (s : string) : option (list string * string) :=
  match p with
  | [] => Some ([], s)
  | Lit l :: p' =>
      match PyStr.strip_prefix l s with
      | Some r => match_here p' r
      | None => None
      end
  | Rep least cls capture :: p' =>
      backtrack
        (λ k,
           match match_here p' (PyStr.drop k s) with
           | Some (groups, r) =>
               Some (if capture then PyStr.take k s :: groups else groups, r)
           | None => None
           end)
        least (span cls s)
  end.

(** The scan of [re.findall] for a pattern with one group: [skip] characters
    of the previous match are still to be passed over. *)
Fixpoint findall_from (p : list atom) (skip : nat) (s : string) : list string :=
  match skip with
  | S k =>
      match s with
      | String _ s' => findall_from p k s'
      | EmptyString => []
      end
  | 0 =>
      match match_here p s with
      | Some (groups, r) =>
          let consumed := String.length s - String.length r in
          hd EmptyString groups ::
            match s with
            | String _ s' => findall_from p (consumed - 1) s'
            | EmptyString => []
            end
      | None =>
          match s with
          | String _ s' => findall_from p 0 s'
          | EmptyString => []
          end
      end
  end.

(** [re.findall(pattern, s)] *)
Definition findall (p : list atom) (s : string) : list string := findall_from p 0 s.

End Re.

(** ** [html.unescape]

    The library function returns its argument unchanged when it holds no
    ampersand; the substitution of character references is the parameter
    [charref_sub]. *)
Definition unescape (charref_sub : string → string) (s : string) : string :=
  if PyStr.contains "&" s then charref_sub s else s.

(** ** [src/utils/rss_parser.py] *)

Module RSSParser.

(** An element of the parsed feed: [element.text] is [None] for an element
    without text. *)
Record Element : Type := { text : option string }.

(** The children of an [<item>] that the parser looks up with [item.find]:
    [None] when the child is missing. *)
Record Item : Type := {
  title : option Element;
  link : option Element;
  pubDate : option Element;
  description : option Element;
  guid : option Element
}.

(** [e is not None and e.text] *)
Definition has_text (e : option Element) : bool :=
  match e with
  | Some el => truthy (text el)
  | None => false
  end.

(** [e.text.split('/')[-1]] *)
Definition trailing_segment (e : Element) : option string :=
  match text e with
  | Some t => Some (PyStr.last_part (PyStr.split_char "/" t))
  | None => None
  end.

(** Lines 44-48: the incident id taken from the GUID or the link. *)
Definition incident_id (item : Item) : option string :=
  if has_text (guid item) then
    match guid item with
    | Some g => trailing_segment g
    | None => None
    end
  else if has_text (link item) then
    match link item with
    | Some l => trailing_segment l
    | None => None
    end
  else None.

(** [e.text if e is not None else 'N/A'] *)
Definition text_or_na (e : option Element) : option string :=
  match e with
  | Some el => text el
  | None => Some "N/A"
  end.

(** Lines 50-56: the incident dictionary of one item. The conditional
    expression of the ['id'] entry reads
    [(incident_id or title.text) if title is not None else 'unknown']. *)
Definition incident_of_item (item : Item) : dict :=
  list_to_map [
    ("id", match title item with
           | Some t => py_or (incident_id item) (text t)
           | None => Some "unknown"
           end);
    ("title", text_or_na (title item));
    ("link", text_or_na (link item));
    ("pub_date", text_or_na (pubDate item));
    ("description", text_or_na (description item))
  ].

(** [fetch_rss_feed_async]: [feed url] stands for the download of the feed
    and [root.findall('.//item')] on it; it raises when the request or the
    XML parser does. *)
Definition fetch_rss_feed_async {W : Type} (feed : string → eff W (list Item))
    (url : string) (max_items : nat) : eff W (list dict) :=
  λ w,
    match feed url w with
    | (Ok items, w') => (Ok (incident_of_item <$> firstn max_items items), w')
    | (Raise e, w') => (Raise e, w')
    end.

(** The pattern [<li>([^(]+)\s*\([^)]+\)</li>]. *)
Definition pattern : list Re.atom :=
  [ Re.Lit "<li>";
    Re.Rep 1 (λ c, negb (Ascii.eqb c "(")) true;
    Re.Rep 0 PyStr.is_space false;
    Re.Lit "(";
    Re.Rep 1 (λ c, negb (Ascii.eqb c ")")) false;
    Re.Lit ")";
    Re.Lit "</li>" ].

(** [extract_services_from_html] *)
Definition extract_services_from_html (charref_sub : string → string)
    (html_content : option string) : list string :=
  match html_content with
  | Some ((String _ _) as content) =>
      let html := unescape charref_sub content in
      let matches := Re.findall pattern html in
      PyStr.strip <$> matches
  | _ => []
  end.

End RSSParser.

(** ** [src/adapters/base.py]: what the watcher calls on an adapter *)

Module BaseAdapter.

Record Adapter (W : Type) : Type := {
  fetch_latest_incidents_async : nat → eff W (list dict);
  process_incident_async : dict → eff W (list dict)
}.
Arguments fetch_latest_incidents_async {W} _ _ _.
Arguments process_incident_async {W} _ _ _.

End BaseAdapter.

(** ** [src/adapters/rss_adapter.py] *)

Module RSSAdapter.

(** What a subclass of [RSSAdapter] fixes: its display name, the class
    attributes and the overridable fallback. *)
Record Class (W : Type) : Type := {
  name : string;
  RSS_FEED_URL : option string;
  INCIDENT_PARSER_TYPE : option string;
  _extract_fallback_services : dict → eff W (list string)
}.
Arguments name {W} _.
Arguments RSS_FEED_URL {W} _.
Arguments INCIDENT_PARSER_TYPE {W} _.
Arguments _extract_fallback_services {W} _ _ _.

(** The outside world as the RSS adapters see it: the feed download, the
    character references of [html.unescape], and
    [HTMLIncidentParser.get_affected_services_async url parser_type], which
    downloads the incident page and parses it. *)
Record Externals (W : Type) : Type := {
  feed : string → eff W (list RSSParser.Item);
  charref_sub : string → string;
  get_affected_services_async : string → string → eff W (list string)
}.
Arguments feed {W} _ _ _.
Arguments charref_sub {W} _ _.
Arguments get_affected_services_async {W} _ _ _ _.

(** The body of the loop of [_format_incidents]. *)
Definition format_service (name : string) (title pub_date : option string)
    (service : string) : dict :=
  let '(group, component) :=
    if PyStr.contains " - " service then
      let parts := PyStr.split_once " - " service in
      (PyStr.strip (PyStr.part 0 parts), PyStr.strip (PyStr.part 1 parts))
    else (name, service) in
  list_to_map [
    ("group", Some group);
    ("component", Some component);
    ("time_created", pub_date);
    ("status_message", title)
  ].

Definition _format_incidents (name : string) (services : list string)
    (title pub_date : option string) : list dict :=
  format_service name title pub_date <$> services.

(** [fetch_latest_incidents_async] *)
Definition fetch_latest_incidents_async {W : Type} (ext : Externals W)
    (self : Class W) (limit : nat) : eff W (list dict) :=
  match RSS_FEED_URL self with
  | Some ((String _ _) as url) => RSSParser.fetch_rss_feed_async (feed ext) url limit
  | _ => λ w, (Raise "NotImplementedError", w)
  end.

(** [_parse_incident_page] *)
Definition _parse_incident_page {W : Type} (ext : Externals W) (self : Class W)
    (parser_type url : string) : eff W (list string) :=
  get_affected_services_async ext url parser_type.

(** Strategy 2 of [process_incident_async] (lines 61-69): the services of the
    incident page when the strategy applies, the page could be read and the
    list is not empty. An exception of the page parser is swallowed. *)
Definition strategy2 {W : Type} (ext : Externals W) (self : Class W)
    (link : option string) : W → option (list string) * W :=
  λ w,
    match INCIDENT_PARSER_TYPE self, link with
    | Some ((String _ _) as parser_type), Some ((String _ _) as url) =>
        if String.eqb url "N/A" then (None, w)
        else
          match _parse_incident_page ext self parser_type url w with
          | (Ok ((_ :: _) as services_from_page), w') => (Some services_from_page, w')
          | (Ok [], w') => (None, w')
          | (Raise _, w') => (None, w')
          end
    | _, _ => (None, w)
    end.

(** Strategy 3 of [process_incident_async] (lines 71-73): the fallback
    services, formatted. *)
Definition strategy3 {W : Type} (self : Class W) (incident : dict)
    (title pub_date : option string) : eff W (list dict) :=
  λ w,
    match _extract_fallback_services self incident w with
    | (Ok fallback_services, w') =>
        (Ok (_format_incidents (name self) fallback_services title pub_date), w')
    | (Raise e, w') => (Raise e, w')
    end.

(** [process_incident_async] *)
Definition process_incident_async {W : Type} (ext : Externals W) (self : Class W)
    (incident : dict) : eff W (list dict) :=
  λ w,
    let title := get_default incident "title" "Unknown Incident" in
    let pub_date := get_default incident "pub_date" "Unknown Time" in
    let link := get_default incident "link" "" in
    let description := get_default incident "description" "" in
    match RSSParser.extract_services_from_html (charref_sub ext) description with
    | (_ :: _) as services_from_rss =>
        (Ok (_format_incidents (name self) services_from_rss title pub_date), w)
    | [] =>
        match strategy2 ext self link w with
        | (Some services_from_page, w1) =>
            (Ok (_format_incidents (name self) services_from_page title pub_date), w1)
        | (None, w1) => strategy3 self incident title pub_date w1
        end
    end.

(** The default [_extract_fallback_services] of the base class. *)
Definition default_fallback {W : Type} (incident : dict) : eff W (list string) :=
  λ w, (Ok ["General Service"], w).

(** An RSS adapter as the watcher sees it. *)
Definition adapter {W : Type} (ext : Externals W) (self : Class W) : BaseAdapter.Adapter W :=
  {| BaseAdapter.fetch_latest_incidents_async := fetch_latest_incidents_async ext self;
     BaseAdapter.process_incident_async := process_incident_async ext self |}.

End RSSAdapter.

(** [incident.get('title', '').lower()]: [None] has no [lower]. *)
Definition lowered_title (incident : dict) : result string :=
  match get_default incident "title" "" with
  | Some t => Ok (PyStr.lower t)
  | None => Raise "AttributeError"
  end.

(** ** [src/adapters/bolna_adapter.py] *)

Module BolnaAdapter.

Definition _extract_fallback_services {W : Type} (incident : dict) : eff W (list string) :=
  λ w,
    match lowered_title incident with
    | Raise e => (Raise e, w)
    | Ok title =>
        (Ok (if PyStr.contains "twilio" title then ["Twilio"]
             else if PyStr.contains "voice" title then ["Voice Service"]
             else if PyStr.contains "api" title then ["API"]
             else if PyStr.contains "webhook" title then ["Webhooks"]
             else ["Bolna Platform"]), w)
    end.

Definition class {W : Type} : RSSAdapter.Class W :=
  {| RSSAdapter.name := "Bolna";
     RSSAdapter.RSS_FEED_URL := Some "https://status.bolna.ai/feed.rss";
     RSSAdapter.INCIDENT_PARSER_TYPE := Some "bolna";
     RSSAdapter._extract_fallback_services := _extract_fallback_services |}.

End BolnaAdapter.

(** ** [src/adapters/claude_adapter.py] *)

Module ClaudeAdapter.

Definition _extract_fallback_services {W : Type} (incident : dict) : eff W (list string) :=
  λ w,
    match lowered_title incident with
    | Raise e => (Raise e, w)
    | Ok title =>
        (Ok (if PyStr.contains "api" title then ["Claude API"]
             else if PyStr.contains "claude.ai" title || PyStr.contains "web" title
                  then ["claude.ai"]
             else if PyStr.contains "platform" title then ["platform.claude.com"]
             else if PyStr.contains "console" title then ["Console"]
             else ["Claude Service"]), w)
    end.

Definition class {W : Type} : RSSAdapter.Class W :=
  {| RSSAdapter.name := "Claude";
     RSSAdapter.RSS_FEED_URL := Some "https://status.claude.com/history.rss";
     RSSAdapter.INCIDENT_PARSER_TYPE := Some "claude";
     RSSAdapter._extract_fallback_services := _extract_fallback_services |}.

End ClaudeAdapter.

(** ** [src/adapters/openai_adapter.py] *)

Module OpenAIAdapter.

(** The three endpoints: the incident list ([data.get("incidents", [])]),
    the component table (component id to its group and component entry; the
    adapter keeps the table once fetched, which only saves later requests)
    and the component ids of the impacts of one incident. Each raises when
    the request fails ([raise_for_status]) or the body is not JSON. *)
Record Externals (W : Type) : Type := {
  incidents : eff W (list dict);
  components : eff W (gmap (option string) dict);
  component_impacts : option string → eff W (list (option string))
}.
Arguments incidents {W} _ _.
Arguments components {W} _ _.
Arguments component_impacts {W} _ _ _.

Definition fetch_latest_incidents_async {W : Type} (ext : Externals W) (limit : nat)
    : eff W (list dict) :=
  λ w,
    match incidents ext w with
    | (Ok data, w') => (Ok (firstn limit data), w')
    | (Raise e, w') => (Raise e, w')
    end.

(** The record of one impact (lines 80-89). *)
Definition impact_record (component_map : gmap (option string) dict)
    (title created_at : option string) (comp_id : option string) : dict :=
  let comp_info := default ∅ (component_map !! comp_id) in
  list_to_map [
    ("group", get_default comp_info "group" "Unknown Group");
    ("component", get_default comp_info "component" "Unknown Component");
    ("time_created", created_at);
    ("status_message", title)
  ].

Definition process_incident_async {W : Type} (ext : Externals W) (incident : dict)
    : eff W (list dict) :=
  λ w,
    match components ext w with
    | (Raise e, w1) => (Raise e, w1)
    | (Ok component_map, w1) =>
        let incident_id := get incident "id" in
        let title := get incident "name" in
        let created_at := get incident "created_at" in
        match component_impacts ext incident_id w1 with
        | (Raise e, w2) => (Raise e, w2)
        | (Ok affected_components, w2) =>
            match impact_record component_map title created_at <$> affected_components with
            | [] =>
                (Ok [list_to_map [
                       ("group", Some "Unknown"); ("component", Some "Unknown");
                       ("time_created", created_at); ("status_message", title)]], w2)
            | results => (Ok results, w2)
            end
        end
    end.

Definition adapter {W : Type} (ext : Externals W) : BaseAdapter.Adapter W :=
  {| BaseAdapter.fetch_latest_incidents_async := fetch_latest_incidents_async ext;
     BaseAdapter.process_incident_async := process_incident_async ext |}.

End OpenAIAdapter.

(** ** [src/adapters/registry.py]

    The registry is a dictionary from names to adapters; Python dictionaries
    keep their keys in insertion order, so it is an association list. *)

Module AdapterRegistry.

Definition registry (W : Type) : Type := list (string * BaseAdapter.Adapter W).

Definition get_adapter {W : Type} (self : registry W) (name : string)
    : result (BaseAdapter.Adapter W) :=
  match List.find (λ entry, String.eqb (fst entry) name) self with
  | Some entry => Ok (snd entry)
  | None => Raise "ValueError"
  end.

Definition register_adapter {W : Type} (self : registry W) (name : string)
    (adapter : BaseAdapter.Adapter W) : result (registry W) :=
  if existsb (λ entry, String.eqb (fst entry) name) self then Raise "ValueError"
  else Ok (self ++ [(name, adapter)]).

Definition list_adapters {W : Type} (self : registry W) : list string := fst <$> self.

End AdapterRegistry.

(** ** The part of [datetime] that the formatter calls

    [fromisoformat] follows the grammar the library documents for it in
    Python 3.10, the oldest version the package supports,
    [YYYY-MM-DD[*HH[:MM[:SS[.fff[fff]]]][+HH:MM[:SS[.ffffff]]]]], and the
    range checks of the [datetime] constructor; [None] stands for the
    [ValueError] it raises. Only the fields that [strftime] prints are kept,
    and [%Y] is the year padded to four digits, as documented. *)

Module Datetime.

Record datetime : Type := {
  year : nat; month : nat; day : nat;
  hour : nat; minute : nat; second : nat
}.

Definition digit (c : ascii) : option nat :=
  let n := nat_of_ascii c in
  if (48 <=? n) && (n <=? 57) then Some (n - 48) else None.

(** Exactly [n] decimal digits at the start of [s]. *)
Fixpoint digits (n acc : nat) (s : string) : option (nat * string) :=
  match n with
  | 0 => Some (acc, s)
  | S n' =>
      match s with
      | String c s' =>
          match digit c with
          | Some d => digits n' (10 * acc + d) s'
          | None => None
          end
      | EmptyString => None
      end
  end.

Definition parse_isoformat_date (s : string) : option (nat * nat * nat) :=
  '(y, s1) ← digits 4 0 s;
  s2 ← PyStr.strip_prefix "-" s1;
  '(m, s3) ← digits 2 0 s2;
  s4 ← PyStr.strip_prefix "-" s3;
  '(d, s5) ← digits 2 0 s4;
  match s5 with
  | EmptyString => Some (y, m, d)
  | _ => None
  end.

(** [HH[:MM[:SS[.fff[fff]]]]]: hour, minute, second, microsecond. *)
Definition parse_hh_mm_ss_ff (t : string) : option (nat * nat * nat * nat) :=
  '(h, r) ← digits 2 0 t;
  match r with
  | EmptyString => Some (h, 0, 0, 0)
  | String ":" r1 =>
      '(m, r2) ← digits 2 0 r1;
      match r2 with
      | EmptyString => Some (h, m, 0, 0)
      | String ":" r3 =>
          '(s, r4) ← digits 2 0 r3;
          match r4 with
          | EmptyString => Some (h, m, s, 0)
          | String "." f =>
              if String.length f =? 3 then
                '(ms, _) ← digits 3 0 f; Some (h, m, s, ms * 1000)
              else if String.length f =? 6 then
                '(us, _) ← digits 6 0 f; Some (h, m, s, us)
              else None
          | _ => None
          end
      | _ => None
      end
  | _ => None
  end.

(** The time part, with its optional offset from UTC: the offset starts at
    the first [-], or else at the first [+]; it must be well formed and
    below 24 hours. *)
Definition parse_isoformat_time (t : string) : option (nat * nat * nat * nat) :=
  let tz_pos :=
    match PyStr.find "-" t with
    | Some i => Some i
    | None => PyStr.find "+" t
    end in
  match tz_pos with
  | None => parse_hh_mm_ss_ff t
  | Some i =>
      comps ← parse_hh_mm_ss_ff (PyStr.take i t);
      let tzstr := PyStr.drop (S i) t in
      let n := String.length tzstr in
      if (n =? 5) || (n =? 8) || (n =? 15) then
        '(th, tm, ts, _) ← parse_hh_mm_ss_ff tzstr;
        if th * 3600 + tm * 60 + ts <? 24 * 3600 then Some comps else None
      else None
  end.

Definition is_leap (y : nat) : bool :=
  (y mod 4 =? 0) && (negb (y mod 100 =? 0) || (y mod 400 =? 0)).

Definition days_in_month (y m : nat) : nat :=
  match m with
  | 2 => if is_leap y then 29 else 28
  | 4 | 6 | 9 | 11 => 30
  | _ => 31
  end.

(** The range checks of the constructor. *)
Definition valid (dt : datetime) : bool :=
  (1 <=? year dt) && (year dt <? 10 * 1000) &&
  (1 <=? month dt) && (month dt <=? 12) &&
  (1 <=? day dt) && (day dt <=? days_in_month (year dt) (month dt)) &&
  (hour dt <? 24) && (minute dt <? 60) && (second dt <? 60).

(** [datetime.fromisoformat] *)
Definition fromisoformat (date_string : string) : option datetime :=
  '(y, m, d) ← parse_isoformat_date (PyStr.take 10 date_string);
  '(hh, mm, ss, _) ←
    match PyStr.drop 11 date_string with
    | EmptyString => Some (0, 0, 0, 0)
    | tstr => parse_isoformat_time tstr
    end;
  let dt := {| year := y; month := m; day := d;
               hour := hh; minute := mm; second := ss |} in
  if valid dt then Some dt else None.

Definition digit_char (d : nat) : ascii := ascii_of_nat (48 + d mod 10).

Definition pad2 (n : nat) : string :=
  String (digit_char (n / 10)) (String (digit_char n) EmptyString).

Definition pad4 (n : nat) : string :=
  String (digit_char (n / 1000)) (String (digit_char (n / 100)) (pad2 n)).

(** [dt.strftime("%Y-%m-%d %H:%M:%S")] *)
Definition strftime (dt : datetime) : string :=
  pad4 (year dt) +:+ "-" +:+ pad2 (month dt) +:+ "-" +:+ pad2 (day dt) +:+ " " +:+
  pad2 (hour dt) +:+ ":" +:+ pad2 (minute dt) +:+ ":" +:+ pad2 (second dt).

End Datetime.

(** ** [src/core/formatter.py] *)

Module formatter.

(** Lines 10-19: the timestamp [ts] of [format_incident]. A string is parsed
    after every [Z] is replaced by [+00:00]; whatever the parser raises is
    caught and the string is kept as it is. *)
Definition ts (time_created : option string) : string :=
  match time_created with
  | Some s =>
      match Datetime.fromisoformat (PyStr.replace_char "Z" "+00:00" s) with
      | Some dt => Datetime.strftime dt
      | None => s
      end
  | None => "Unknown Time"
  end.




End formatter.

(** ** [src/core/watcher.py] *)

Module Watcher.

(** [self.last_seen_ids]: per adapter name, the set of incident ids seen. *)
Abbreviation seen_ids := (gmap string (gset (option string))).

(** What a run leaves behind, in order: the list an adapter returned, the
    call of [_process_incident] on an incident, the records printed under
    the NEW UPDATE banner (lines 51-53), the records printed by the startup
    display (lines 103-113), and the error written to the log. The first two
    are not printed by the program; they record its calls. *)
Inductive event : Type :=
| Fetched (adapter_name : string) (incidents : list dict)
| Processing (adapter_name : string) (incident : dict)
| NewUpdate (adapter_name : string) (incident : dict) (processed : list dict)
| InitialStatus (adapter_name : string) (incident : dict) (processed : list dict)
| ErrorLogged (adapter_name : string) (e : string).

Definition source (ev : event) : string :=
  match ev with
  | Fetched n _ | Processing n _ | NewUpdate n _ _ | InitialStatus n _ _
  | ErrorLogged n _ => n
  end.

(** The state after a piece of the run, and what it left behind. *)
Record step (W : Type) : Type := {
  last_seen_ids : seen_ids;
  output : list event;
  world : W
}.
Arguments last_seen_ids {W} _.
Arguments output {W} _.
Arguments world {W} _.

(** [self.last_seen_ids.get(adapter_name, set())] *)
Definition seen_of (ids : seen_ids) (adapter_name : string) : gset (option string) :=
  default ∅ (ids !! adapter_name).

(** [self.last_seen_ids.setdefault(adapter_name, set()).add(incident_id)] *)
Definition mark_seen (ids : seen_ids) (adapter_name : string)
    (incident_id : option string) : seen_ids :=
  <[adapter_name := seen_of ids adapter_name ∪ {[incident_id]}]> ids.

(** [_fetch_incidents_async]: the adapter's method with its default limit. *)
Definition _fetch_incidents_async {W : Type} (adapter : BaseAdapter.Adapter W)
    : eff W (list dict) :=
  BaseAdapter.fetch_latest_incidents_async adapter 3.

Definition _process_incident {W : Type} (adapter : BaseAdapter.Adapter W)
    (incident : dict) : eff W (list dict) :=
  BaseAdapter.process_incident_async adapter incident.

(** The records printed for one incident, if any. *)
Definition printed (banner : string → dict → list dict → event)
    (adapter_name : string) (incident : dict) (processed : list dict) : list event :=
  match processed with
  | [] => []
  | _ :: _ => [banner adapter_name incident processed]
  end.

(** Lines 43-53: the loop over the incidents of one adapter. It stops at the
    first exception, which is returned next to the state reached. *)
Fixpoint check_loop {W : Type} (adapter_name : string) (adapter : BaseAdapter.Adapter W)
    (incidents : list dict) (ids : seen_ids) (w : W) : step W * option string :=
  match incidents with
  | [] => ({| last_seen_ids := ids; output := []; world := w |}, None)
  | incident :: rest =>
      let incident_id := get incident "id" in
      if decide (incident_id ∈ seen_of ids adapter_name) then
        check_loop adapter_name adapter rest ids w
      else
        let ids1 := mark_seen ids adapter_name incident_id in
        match _process_incident adapter incident w with
        | (Raise e, w1) =>
            ({| last_seen_ids := ids1;
                output := [Processing adapter_name incident];
                world := w1 |}, Some e)
        | (Ok processed, w1) =>
            let '(s, err) := check_loop adapter_name adapter rest ids1 w1 in
            ({| last_seen_ids := last_seen_ids s;
                output := Processing adapter_name incident ::
                          printed NewUpdate adapter_name incident processed ++ output s;
                world := world s |}, err)
        end
  end.

(** Lines 96-113: the loop of the startup display; every incident is marked
    and processed, whether seen before or not. *)
Fixpoint initial_loop {W : Type} (adapter_name : string) (adapter : BaseAdapter.Adapter W)
    (incidents : list dict) (ids : seen_ids) (w : W) : step W * option string :=
  match incidents with
  | [] => ({| last_seen_ids := ids; output := []; world := w |}, None)
  | incident :: rest =>
      let incident_id := get incident "id" in
      let ids1 := mark_seen ids adapter_name incident_id in
      match _process_incident adapter incident w with
      | (Raise e, w1) =>
          ({| last_seen_ids := ids1;
              output := [Processing adapter_name incident];
              world := w1 |}, Some e)
      | (Ok processed, w1) =>
          let '(s, err) := initial_loop adapter_name adapter rest ids1 w1 in
          ({| last_seen_ids := last_seen_ids s;
              output := Processing adapter_name incident ::
                        printed InitialStatus adapter_name incident processed ++ output s;
              world := world s |}, err)
      end
  end.

(** The body of the [for adapter_name in ...] loops: the [try] block looks
    the adapter up, fetches its incidents and runs [loop] on them; the
    [except] block logs whatever was raised. *)
Definition with_adapter {W : Type} (registry : AdapterRegistry.registry W)
    (loop : string → BaseAdapter.Adapter W → list dict → seen_ids → W → step W * option string)
    (adapter_name : string) (ids : seen_ids) (w : W) : step W :=
  match AdapterRegistry.get_adapter registry adapter_name with
  | Raise e =>
      {| last_seen_ids := ids; output := [ErrorLogged adapter_name e]; world := w |}
  | Ok adapter =>
      match _fetch_incidents_async adapter w with
      | (Raise e, w1) =>
          {| last_seen_ids := ids; output := [ErrorLogged adapter_name e]; world := w1 |}
      | (Ok incidents, w1) =>
          match loop adapter_name adapter incidents ids w1 with
          | (s, None) =>
              {| last_seen_ids := last_seen_ids s;
                 output := Fetched adapter_name incidents :: output s;
                 world := world s |}
          | (s, Some e) =>
              {| last_seen_ids := last_seen_ids s;
                 output := Fetched adapter_name incidents :: output s ++
                           [ErrorLogged adapter_name e];
                 world := world s |}
          end
      end
  end.

(** [for adapter_name in self.registry.list_adapters(): ...] *)
Fixpoint for_each {W : Type} (body : string → seen_ids → W → step W)
    (names : list string) (ids : seen_ids) (w : W) : step W :=
  match names with
  | [] => {| last_seen_ids := ids; output := []; world := w |}
  | adapter_name :: rest =>
      let s1 := body adapter_name ids w in
      let s2 := for_each body rest (last_seen_ids s1) (world s1) in
      {| last_seen_ids := last_seen_ids s2;
         output := output s1 ++ output s2;
         world := world s2 |}
  end.

(** The steady-state pass over one adapter and over all of them. *)
Definition check_adapter {W : Type} (registry : AdapterRegistry.registry W)
    : string → seen_ids → W → step W :=
  with_adapter registry check_loop.

Definition check_incidents {W : Type} (registry : AdapterRegistry.registry W)
    (ids : seen_ids) (w : W) : step W :=
  for_each (check_adapter registry) (AdapterRegistry.list_adapters registry) ids w.

(** The startup pass: [incidents[:3]] of each adapter. *)
Definition initial_adapter {W : Type} (registry : AdapterRegistry.registry W)
    : string → seen_ids → W → step W :=
  with_adapter registry
    (λ adapter_name adapter incidents, initial_loop adapter_name adapter (firstn 3 incidents)).

Definition show_initial_status {W : Type} (registry : AdapterRegistry.registry W)
    (ids : seen_ids) (w : W) : step W :=
  for_each (initial_adapter registry) (AdapterRegistry.list_adapters registry) ids w.

(** The [while True] loop of [start_monitoring], cut after [cycles] passes;
    [sleep] is what happens to the world during [asyncio.sleep]. *)
Fixpoint monitor {W : Type} (registry : AdapterRegistry.registry W) (sleep : W → W)
    (cycles : nat) (ids : seen_ids) (w : W) : step W :=
  match cycles with
  | 0 => {| last_seen_ids := ids; output := []; world := w |}
  | S n =>
      let s1 := check_incidents registry ids w in
      let s2 := monitor registry sleep n (last_seen_ids s1) (sleep (world s1)) in
      {| last_seen_ids := last_seen_ids s2;
         output := output s1 ++ output s2;
         world := world s2 |}
  end.

(** [start_monitoring]: the startup pass on a fresh watcher, then the loop. *)
Definition start_monitoring {W : Type} (registry : AdapterRegistry.registry W)
    (sleep : W → W) (cycles : nat) (w : W) : step W :=
  let s0 := show_initial_status registry ∅ w in
  let s1 := monitor registry sleep cycles (last_seen_ids s0) (world s0) in
  {| last_seen_ids := last_seen_ids s1;
     output := output s0 ++ output s1;
     world := world s1 |}.

(** The record sets handed to the display by a run, and those among them
    that are announced as new. *)
Definition is_emission (ev : event) : bool :=
  match ev with
  | NewUpdate _ _ _ | InitialStatus _ _ _ => true
  | _ => false
  end.

Definition is_new_update (adapter_name : string) (ev : event) : bool :=
  match ev with
  | NewUpdate n _ _ => String.eqb n adapter_name
  | _ => false
  end.

End Watcher.

(** ** Shapes that the statements below speak about *)





Definition is_digit (c : ascii) : bool :=
  let n := nat_of_ascii c in (48 <=? n) && (n <=? 57).


(** ** Concrete feeds and registries used as examples *)

Module Examples.

Definition el (s : string) : option RSSParser.Element :=
  Some {| RSSParser.text := Some s |}.

(** An item with a GUID, a link and a title. *)
Definition item_guid_and_link : RSSParser.Item :=
  {| RSSParser.title := el "Elevated error rates";
     RSSParser.link := el "https://status.bolna.ai/incident/812345";
     RSSParser.pubDate := el "Mon, 03 Nov 2025 14:32:00 +0000";
     RSSParser.description := el "We are investigating.";
     RSSParser.guid := el "https://status.bolna.ai/guid/77" |}.

(** The same item with a GUID that ends in a slash. *)
Definition item_guid_slash : RSSParser.Item :=
  {| RSSParser.title := el "Elevated error rates";
     RSSParser.link := el "https://status.bolna.ai/incident/812345";
     RSSParser.pubDate := el "Mon, 03 Nov 2025 14:32:00 +0000";
     RSSParser.description := el "We are investigating.";
     RSSParser.guid := el "https://status.bolna.ai/guid/77/" |}.

(** An item whose [<title/>] element has no text, and nothing but a GUID
    besides. *)
Definition item_empty_title (g : string) : RSSParser.Item :=
  {| RSSParser.title := Some {| RSSParser.text := None |};
     RSSParser.link := None;
     RSSParser.pubDate := None;
     RSSParser.description := None;
     RSSParser.guid := el g |}.

(** An item with a title and a GUID only. *)
Definition item_titled (t g : string) : RSSParser.Item :=
  {| RSSParser.title := el t;
     RSSParser.link := None;
     RSSParser.pubDate := None;
     RSSParser.description := None;
     RSSParser.guid := el g |}.

(** A world that records the incident pages requested. *)
Definition pages : Type := list string.

(** The feed holds [items]; every incident page lists [services]. *)
Definition online (items : list RSSParser.Item) (services : list string)
    : RSSAdapter.Externals pages :=
  {| RSSAdapter.feed := λ _ w, (Ok items, w);
     RSSAdapter.charref_sub := λ s, s;
     RSSAdapter.get_affected_services_async := λ url _ w, (Ok services, url :: w) |}.

(** The feed holds [items]; no incident page can be reached. *)
Definition pages_down (items : list RSSParser.Item) : RSSAdapter.Externals pages :=
  {| RSSAdapter.feed := λ _ w, (Ok items, w);
     RSSAdapter.charref_sub := λ s, s;
     RSSAdapter.get_affected_services_async := λ url _ w, (Raise "ClientError", url :: w) |}.

(** The world of the scenario: the feed holds one item while the world is
    [false] (startup) and two once it is [true]. *)
Definition growing_feed : RSSAdapter.Externals bool :=
  {| RSSAdapter.feed := λ _ (w : bool),
       (Ok (if w then [item_titled "API errors" "x1"; item_titled "Webhooks delayed" "x2"]
            else [item_titled "API errors" "x1"]), w);
     RSSAdapter.charref_sub := λ s, s;
     RSSAdapter.get_affected_services_async := λ _ _ w, (Raise "ClientError", w) |}.

Definition bolna_registry {W : Type} (ext : RSSAdapter.Externals W)
    : AdapterRegistry.registry W :=
  [("bolna", RSSAdapter.adapter ext BolnaAdapter.class)].

(** A feed with one well-formed item. *)
Definition steady_registry : AdapterRegistry.registry pages :=
  bolna_registry (pages_down [item_titled "API errors" "x1"]).

(** Two incidents of the JSON source; the detail request of the first one
    fails, that of the second one names a known component. *)
Definition json_incident (id name : string) : dict :=
  list_to_map [("id", Some id); ("name", Some name);
               ("created_at", Some "2025-11-03T14:32:00Z")].

Definition detail_down : OpenAIAdapter.Externals unit :=
  {| OpenAIAdapter.incidents := λ w,
       (Ok [json_incident "A" "Login errors"; json_incident "B" "Slow responses"], w);
     OpenAIAdapter.components := λ w,
       (Ok {[ Some "c1" := list_to_map [("group", Some "API"); ("component", Some "Chat")] ]}, w);
     OpenAIAdapter.component_impacts := λ incident_id w,
       (if decide (incident_id = Some "A") then Raise "ClientResponseError"
        else Ok [Some "c1"], w) |}.

Definition failing_registry : AdapterRegistry.registry unit :=
  [("openai", OpenAIAdapter.adapter detail_down)].

(** An incident with an embedded list, and one with a link only. *)
Definition incident_with_list : dict :=
  list_to_map [
    ("id", Some "inc1"); ("title", Some "Elevated error rates");
    ("link", Some "https://status.bolna.ai/incident/812345");
    ("pub_date", Some "Mon, 03 Nov 2025 14:32:00 +0000");
    ("description", Some "<ul><li>API (Degraded)</li><li>Voice - Calls (Down)</li></ul>")
  ].

Definition incident_with_link (link : string) : dict :=
  list_to_map [
    ("id", Some "inc2"); ("title", Some "Voice calls failing");
    ("link", Some link);
    ("pub_date", Some "Mon, 03 Nov 2025 14:32:00 +0000");
    ("description", Some "We are investigating.")
  ].

End Examples.

(** ** More of the watcher's trace *)

(** The ids of the incidents of one adapter on which [_process_incident] was
    called, and of those announced under the NEW UPDATE banner, in order. *)
Definition processed_ids (adapter_name : string) (out : list Watcher.event)
    : list (option string) :=
  omap (λ ev, match ev with
              | Watcher.Processing n incident =>
                  if decide (n = adapter_name) then Some (get incident "id") else None
              | _ => None
              end) out.

Definition announced_ids (adapter_name : string) (out : list Watcher.event)
    : list (option string) :=
  omap (λ ev, match ev with
              | Watcher.NewUpdate n incident _ =>
                  if decide (n = adapter_name) then Some (get incident "id") else None
              | _ => None
              end) out.

(** What a stretch of the steady-state run, from the seen-sets [ids] to the
    seen-sets [ids'], keeps for one adapter: no id is processed twice, an id
    is processed only if it was not seen before the stretch and it is seen
    after it, the seen-set only grows, and the announced ids are among the
    processed ones, in the same order. *)
Definition at_most_once (adapter_name : string) (ids : Watcher.seen_ids)
    (out : list Watcher.event) (ids' : Watcher.seen_ids) : Prop :=
  NoDup (processed_ids adapter_name out) ∧
  (∀ id, id ∈ processed_ids adapter_name out →
     (id ∉ Watcher.seen_of ids adapter_name) ∧ id ∈ Watcher.seen_of ids' adapter_name) ∧
  Watcher.seen_of ids adapter_name ⊆ Watcher.seen_of ids' adapter_name ∧
  sublist (announced_ids adapter_name out) (processed_ids adapter_name out).

(** ** Registering several adapters

    A sequence of [register_adapter] calls, as in [main]: the first call that
    raises ends the sequence. *)
Fixpoint register_all {W : Type} (entries : list (string * BaseAdapter.Adapter W))
    (registry : AdapterRegistry.registry W) : result (AdapterRegistry.registry W) :=
  match entries with
  | [] => Ok registry
  | (name, adapter) :: rest =>
      match AdapterRegistry.register_adapter registry name adapter with
      | Ok registry' => register_all rest registry'
      | Raise e => Raise e
      end
  end.

(** ** More [str] methods *)

Module PyText.

(** [c in s] for a character. *)
Fixpoint has_char (c : ascii) (s : string) : bool :=
  match s with
  | String a s' => Ascii.eqb a c || has_char c s'
  | EmptyString => false
  end.

(** [s.split()]: the maximal runs of characters that are not whitespace;
    [word] is the run being read. *)
Fixpoint split_whitespace_from (word s : string) : list string :=
  match s with
  | EmptyString => match word with EmptyString => [] | _ => [word] end
  | String c s' =>
      if PyStr.is_space c then
        match word with
        | EmptyString => split_whitespace_from EmptyString s'
        | _ => word :: split_whitespace_from EmptyString s'
        end
      else split_whitespace_from (word +:+ String c EmptyString) s'
  end.

Definition split_whitespace (s : string) : list string :=
  split_whitespace_from EmptyString s.

(** [sep.join(parts)] *)
Fixpoint join (sep : string) (parts : list string) : string :=
  match parts with
  | [] => EmptyString
  | [p] => p
  | p :: rest => p +:+ sep +:+ join sep rest
  end.

(** [s.replace(old, new)] for a non-empty [old]: the occurrences are found
    from left to right and do not overlap; [skip] characters of the last
    occurrence are still to be passed over. *)
Fixpoint replace_from (old new : string) (skip : nat) (s : string) : string :=
  match s with
  | EmptyString => EmptyString
  | String c s' =>
      match skip with
      | S k => replace_from old new k s'
      | 0 =>
          match PyStr.strip_prefix old s with
          | Some _ => new +:+ replace_from old new (String.length old - 1) s'
          | None => String c (replace_from old new 0 s')
          end
      end
  end.

Definition replace (old new s : string) : string := replace_from old new 0 s.

(** [s.rstrip(c)] for a one-character argument. *)
Fixpoint rstrip_char (c : ascii) (s : string) : string :=
  match s with
  | String a s' =>
      match rstrip_char c s' with
      | EmptyString => if Ascii.eqb a c then EmptyString else String a EmptyString
      | r => String a r
      end
  | EmptyString => EmptyString
  end.

End PyText.

(** ** [HTMLIncidentParser] of [src/utils/rss_parser.py]

    BeautifulSoup is outside the model: the parsers take what they ask the
    soup for, [soup.stripped_strings], [soup.find_all(string=True)] and the
    text of [soup.find("h1")]. *)

Module HTMLIncidentParser.

Definition label : string := "Affected services".

(** [candidate and candidate not in {"* * *", "*", "Affected services"}] *)
Definition is_service (candidate : string) : bool :=
  negb (String.eqb candidate "") &&
  negb (String.eqb candidate "* * *" || String.eqb candidate "*" ||
        String.eqb candidate label).

(** Lines 133-146: the two loops over [texts]. With [looking] the inner loop
    is under way and reads the next text; when it finds a service it stops
    and the outer loop reads that same text again, from where it goes on. *)
Fixpoint affected_services (looking : bool) (texts : list string) : list string :=
  match texts with
  | [] => []
  | t :: rest =>
      if looking then
        let candidate := PyStr.strip t in
        if is_service candidate then
          candidate :: affected_services (String.eqb (PyStr.strip t) label) rest
        else affected_services true rest
      else affected_services (String.eqb (PyStr.strip t) label) rest
  end.

(** Lines 149-154: duplicates removed, the first occurrence kept. *)
Fixpoint unique_services (seen : gset string) (services : list string) : list string :=
  match services with
  | [] => []
  | s :: rest =>
      if decide (s ∈ seen) then unique_services seen rest
      else s :: unique_services (seen ∪ {[s]}) rest
  end.

(** [parse_bolna_incident] on [list(soup.stripped_strings)]. *)
Definition parse_bolna_incident (texts : list string) : list string :=
  unique_services ∅ (affected_services false texts).

(** [" ".join(t.split()).lower()] *)
Definition normalized (t : string) : string :=
  PyStr.lower (PyText.join " " (PyText.split_whitespace t)).

(** Lines 179-191: the services named after the colon of a text node. *)
Definition services_after_colon (t : string) : result (list string) :=
  match PyStr.split_once ":" t with
  | [_; after] =>
      let part := PyStr.strip after in
      let part := PyText.replace " and " ", " part in
      let services :=
        (λ s, PyText.rstrip_char "." (PyStr.strip s)) <$> PyStr.split_char "," part in
      Ok (List.filter (λ s, negb (String.eqb s "")) services)
  | _ => Raise "IndexError"
  end.

(** [parse_claude_incident] on [soup.find_all(string=True)] and the text of
    the first [h1], if there is one. *)
Fixpoint parse_claude_incident (text_elements : list string) (h1 : option string)
    : result (list string) :=
  match text_elements with
  | t :: rest =>
      if PyStr.contains "this incident affected:" (normalized t) then services_after_colon t
      else parse_claude_incident rest h1
  | [] =>
      match h1 with
      | Some title => Ok [PyStr.strip title]
      | None => Ok ["Unknown Service"]
      end
  end.

(** What the parsers ask of the soup of a page. *)
Record Soup : Type := {
  stripped_strings : string → list string;
  find_all_strings : string → list string;
  find_h1 : string → option string
}.

(** [get_affected_services_async]: [fetch_incident_page_async] is the
    download of the page. *)
Definition get_affected_services_async {W : Type}
    (fetch_incident_page_async : string → eff W string) (soup : Soup)
    (url parser_type : string) : eff W (list string) :=
  λ w,
    match fetch_incident_page_async url w with
    | (Raise e, w') => (Raise e, w')
    | (Ok html, w') =>
        if String.eqb (PyStr.lower parser_type) "bolna" then
          (Ok (parse_bolna_incident (stripped_strings soup html)), w')
        else if String.eqb (PyStr.lower parser_type) "claude" then
          (parse_claude_incident (find_all_strings soup html) (find_h1 soup html), w')
        else
          match find_h1 soup html with
          | Some title => (Ok [PyStr.strip title], w')
          | None => (Ok ["Unknown Service"], w')
          end
    end.

End HTMLIncidentParser.


#[local] Arguments String.append !s1 s2 : simpl nomatch.
#[local] Set Warnings "-clear-no-such-hyp".

(** * Properties *)

(** ** Strings *)






Lemma drop_append (a b : string) : PyStr.drop (String.length a) (a +:+ b) = b.
Proof. induction a as [| x a IH]; simpl; [by destruct b | exact IH]. Qed.

Lemma take_drop (n : nat) (s : string) : PyStr.take n s +:+ PyStr.drop n s = s.
Proof.
  revert s. induction n as [| n IH]; intros [| c s]; simpl; try reflexivity.
  by rewrite IH.
Qed.


Lemma drop_add (n m : nat) (s : string) :
  PyStr.drop (n + m) s = PyStr.drop m (PyStr.drop n s).
Proof.
  revert s. induction n as [| n IH]; intros s; simpl; [reflexivity |].
  destruct s as [| c s]; [by destruct m | apply IH].
Qed.

Lemma strip_prefix_append (p r : string) : PyStr.strip_prefix p (p +:+ r) = Some r.
Proof.
  induction p as [| c p IH]; simpl; [reflexivity |].
  by rewrite Ascii.eqb_refl.
Qed.

Lemma strip_prefix_Some (p s r : string) :
  PyStr.strip_prefix p s = Some r → s = p +:+ r.
Proof.
  revert s. induction p as [| c p IH]; intros s; simpl.
  - by intros [= ->].
  - destruct s as [| x s]; [discriminate |].
    destruct (Ascii.eqb c x) eqn:E; [| discriminate].
    apply Ascii.eqb_eq in E as ->. intros H. by rewrite (IH _ H).
Qed.

(** [find] returns the first occurrence. *)
Lemma find_Some (sub s : string) (i : nat) :
  PyStr.find sub s = Some i →
  s = PyStr.take i s +:+ sub +:+ PyStr.drop (i + String.length sub) s ∧
  i ≤ String.length s ∧
  ∀ a b, s = a +:+ sub +:+ b → i ≤ String.length a.
Proof.
  revert i. induction s as [| c s IH]; intros i.
  - destruct sub as [| x sub]; simpl; [| discriminate].
    intros [= <-]. repeat split; simpl; lia.
  - cbn [PyStr.find]. destruct (PyStr.strip_prefix sub (String c s)) as [r |] eqn:E.
    + intros [= <-]. apply strip_prefix_Some in E. repeat split; [| lia | lia].
      cbn [PyStr.take plus]. rewrite E at 1. simpl. f_equal.
      rewrite E. by rewrite drop_append.
    + destruct (PyStr.find sub s) as [j |] eqn:F; [| discriminate].
      intros [= <-]. destruct (IH j eq_refl) as (Hs & Hj & Hmin).
      repeat split.
      * cbn [PyStr.take PyStr.drop plus String.append]. by rewrite <- Hs.
      * simpl. lia.
      * intros [| x a] b Hab.
        -- simpl in Hab. rewrite Hab, strip_prefix_append in E. discriminate.
        -- simpl in Hab. injection Hab as -> Hab. simpl.
           specialize (Hmin a b Hab). lia.
Qed.

Lemma find_None (sub s : string) :
  PyStr.find sub s = None → ∀ a b, s ≠ a +:+ sub +:+ b.
Proof.
  induction s as [| c s IH]; cbn [PyStr.find].
  - destruct (PyStr.strip_prefix sub "") eqn:E; [discriminate |].
    intros _ [| x a] b H; [| discriminate]. simpl in H.
    rewrite H, strip_prefix_append in E. discriminate.
  - destruct (PyStr.strip_prefix sub (String c s)) eqn:E; [discriminate |].
    destruct (PyStr.find sub s) eqn:F; [discriminate |].
    intros _ [| x a] b H.
    + simpl in H. rewrite H, strip_prefix_append in E. discriminate.
    + simpl in H. injection H as -> H. by eapply IH.
Qed.

Lemma contains_true (sub s : string) :
  PyStr.contains sub s = true ↔ ∃ a b, s = a +:+ sub +:+ b.
Proof.
  unfold PyStr.contains. split.
  - destruct (PyStr.find sub s) as [i |] eqn:F; [| discriminate].
    intros _. apply find_Some in F as (Hs & _). eauto.
  - intros (a & b & H). destruct (PyStr.find sub s) eqn:F; [reflexivity |].
    exfalso. by eapply find_None.
Qed.

(** ** Lookups in the incident dictionary of an item *)

Section IncidentOfItem.
Variable item : RSSParser.Item.

Lemma incident_id_entry :
  get (RSSParser.incident_of_item item) "id" =
    match RSSParser.title item with
    | Some t => py_or (RSSParser.incident_id item) (RSSParser.text t)
    | None => Some "unknown"
    end.
Proof. unfold get, RSSParser.incident_of_item. simpl. by simplify_map_eq. Qed.

Lemma incident_title_entry :
  RSSParser.incident_of_item item !! "title" = Some (RSSParser.text_or_na (RSSParser.title item)).
Proof. unfold RSSParser.incident_of_item. simpl. by simplify_map_eq. Qed.

Lemma incident_link_entry :
  RSSParser.incident_of_item item !! "link" = Some (RSSParser.text_or_na (RSSParser.link item)).
Proof. unfold RSSParser.incident_of_item. simpl. by simplify_map_eq. Qed.

Lemma incident_pub_date_entry :
  RSSParser.incident_of_item item !! "pub_date" =
    Some (RSSParser.text_or_na (RSSParser.pubDate item)).
Proof. unfold RSSParser.incident_of_item. simpl. by simplify_map_eq. Qed.

Lemma incident_description_entry :
  RSSParser.incident_of_item item !! "description" =
    Some (RSSParser.text_or_na (RSSParser.description item)).
Proof. unfold RSSParser.incident_of_item. simpl. by simplify_map_eq. Qed.

End IncidentOfItem.

(** C4, as the code has it. For an item with a title element: a GUID with
    text gives its trailing segment when that segment is not empty and the
    title text otherwise, whatever the link; without such a GUID, a link with
    text gives its trailing segment when not empty and the title text
    otherwise; with neither, the id is the title text. *)
Theorem incident_id_precedence (item : RSSParser.Item) (t : RSSParser.Element) :
  RSSParser.title item = Some t →
  let id := get (RSSParser.incident_of_item item) "id" in
  (∀ g, RSSParser.guid item = Some g → truthy (RSSParser.text g) = true →
     id = if truthy (RSSParser.trailing_segment g)
          then RSSParser.trailing_segment g else RSSParser.text t) ∧
  (∀ l, RSSParser.has_text (RSSParser.guid item) = false →
     RSSParser.link item = Some l → truthy (RSSParser.text l) = true →
     id = if truthy (RSSParser.trailing_segment l)
          then RSSParser.trailing_segment l else RSSParser.text t) ∧
  (RSSParser.has_text (RSSParser.guid item) = false →
   RSSParser.has_text (RSSParser.link item) = false →
     id = RSSParser.text t).
Proof.
  intros Ht id. subst id. rewrite incident_id_entry, Ht.
  unfold py_or, RSSParser.incident_id. repeat split.
  - intros g Hg Htext. unfold RSSParser.has_text. rewrite Hg, Htext. reflexivity.
  - intros l Hguid Hl Htext. rewrite Hguid.
    rewrite Hl. simpl. rewrite Htext. reflexivity.
  - intros Hguid Hlink. rewrite Hguid, Hlink. reflexivity.
Qed.

Lemma incident_id_precedence_witness :
  get (RSSParser.incident_of_item Examples.item_guid_and_link) "id" = Some "77".
Proof.
  destruct (incident_id_precedence Examples.item_guid_and_link
              {| RSSParser.text := Some "Elevated error rates" |} eq_refl) as [Hguid _].
  exact (Hguid {| RSSParser.text := Some "https://status.bolna.ai/guid/77" |} eq_refl eq_refl).
Defined.

(** C4 as stated fails: this item has a GUID with text, and its id is the
    title, not the trailing segment of the GUID. *)
Lemma guid_with_trailing_slash_yields_title :
  RSSParser.has_text (RSSParser.guid Examples.item_guid_slash) = true ∧
  RSSParser.incident_id Examples.item_guid_slash = Some "" ∧
  get (RSSParser.incident_of_item Examples.item_guid_slash) "id" = Some "Elevated error rates" ∧
  get (RSSParser.incident_of_item Examples.item_guid_slash) "id" ≠
    RSSParser.incident_id Examples.item_guid_slash.
Proof. rewrite incident_id_entry. repeat split. discriminate. Qed.

(** ** The cascade of [process_incident_async] *)

Section Cascade.
Context {W : Type} (ext : RSSAdapter.Externals W) (self : RSSAdapter.Class W).

Lemma strategy2_skips_na_and_empty (link : option string) (w : W) :
  link = Some "N/A" ∨ link = Some "" ∨ link = None →
  RSSAdapter.strategy2 ext self link w = (None, w).
Proof.
  unfold RSSAdapter.strategy2.
  intros [-> | [-> | ->]]; destruct (RSSAdapter.INCIDENT_PARSER_TYPE self) as [[|]|]; reflexivity.
Qed.

Lemma process_strategy1 (incident : dict) (w : W) services_from_rss :
  RSSParser.extract_services_from_html (RSSAdapter.charref_sub ext)
    (get_default incident "description" "") = services_from_rss →
  services_from_rss ≠ [] →
  RSSAdapter.process_incident_async ext self incident w =
    (Ok (RSSAdapter._format_incidents (RSSAdapter.name self) services_from_rss
           (get_default incident "title" "Unknown Incident")
           (get_default incident "pub_date" "Unknown Time")), w).
Proof.
  intros Hrss Hne. unfold RSSAdapter.process_incident_async. rewrite Hrss.
  destruct services_from_rss; [done | reflexivity].
Qed.

Lemma process_after_strategy1 (incident : dict) (w : W) :
  RSSParser.extract_services_from_html (RSSAdapter.charref_sub ext)
    (get_default incident "description" "") = [] →
  RSSAdapter.process_incident_async ext self incident w =
    match RSSAdapter.strategy2 ext self (get_default incident "link" "") w with
    | (Some services_from_page, w1) =>
        (Ok (RSSAdapter._format_incidents (RSSAdapter.name self) services_from_page
               (get_default incident "title" "Unknown Incident")
               (get_default incident "pub_date" "Unknown Time")), w1)
    | (None, w1) =>
        RSSAdapter.strategy3 self incident
          (get_default incident "title" "Unknown Incident")
          (get_default incident "pub_date" "Unknown Time") w1
    end.
Proof.
  intros Hrss. unfold RSSAdapter.process_incident_async.
  rewrite Hrss. reflexivity.
Qed.

Lemma strategy2_page (parser_type url : string) (w w1 : W) services_from_page :
  RSSAdapter.INCIDENT_PARSER_TYPE self = Some parser_type →
  parser_type ≠ "" → url ≠ "" → url ≠ "N/A" →
  RSSAdapter.get_affected_services_async ext url parser_type w = (Ok services_from_page, w1) →
  services_from_page ≠ [] →
  RSSAdapter.strategy2 ext self (Some url) w = (Some services_from_page, w1).
Proof.
  intros Hpt Hpt_ne Hurl Hna Hpage Hne. unfold RSSAdapter.strategy2. rewrite Hpt.
  destruct parser_type; [done |]. destruct url as [| c url]; [done |].
  destruct (String.eqb (String c url) "N/A") eqn:E.
  { apply String.eqb_eq in E. done. }
  unfold RSSAdapter._parse_incident_page. rewrite Hpage.
  destruct services_from_page; [done | reflexivity].
Qed.


End Cascade.

(** C6. The cascade stops at the first strategy with a result. When the
    embedded list is not empty, its services alone are formatted and the
    world is left as it was: neither the page parser nor the fallback ran.
    When it is empty and the page parser returns a list that is not empty,
    that list alone is formatted and the world is the one the page parser
    left: the fallback did not run. *)
Theorem cascade_short_circuits {W : Type} (ext : RSSAdapter.Externals W)
    (self : RSSAdapter.Class W) (incident : dict) (w : W) :
  let title := get_default incident "title" "Unknown Incident" in
  let pub_date := get_default incident "pub_date" "Unknown Time" in
  let services_from_rss :=
    RSSParser.extract_services_from_html (RSSAdapter.charref_sub ext)
      (get_default incident "description" "") in
  (services_from_rss ≠ [] →
     RSSAdapter.process_incident_async ext self incident w =
       (Ok (RSSAdapter._format_incidents (RSSAdapter.name self) services_from_rss
              title pub_date), w)) ∧
  (services_from_rss = [] →
   ∀ parser_type url services_from_page w1,
     RSSAdapter.INCIDENT_PARSER_TYPE self = Some parser_type → parser_type ≠ "" →
     get_default incident "link" "" = Some url → url ≠ "" → url ≠ "N/A" →
     RSSAdapter.get_affected_services_async ext url parser_type w =
       (Ok services_from_page, w1) →
     services_from_page ≠ [] →
     RSSAdapter.process_incident_async ext self incident w =
       (Ok (RSSAdapter._format_incidents (RSSAdapter.name self) services_from_page
              title pub_date), w1)).
Proof.
  intros title pub_date services_from_rss. split.
  - intros Hne. by apply process_strategy1.
  - intros Hrss parser_type url services_from_page w1 Hpt Hpt_ne Hlink Hurl Hna Hpage Hne.
    rewrite process_after_strategy1 by exact Hrss.
    rewrite Hlink.
    rewrite (strategy2_page ext self parser_type url w w1 services_from_page) by done.
    reflexivity.
Qed.

Lemma cascade_short_circuits_witness :
  RSSAdapter.process_incident_async (Examples.online [] ["Voice"]) BolnaAdapter.class
    Examples.incident_with_list [] =
    (Ok (RSSAdapter._format_incidents "Bolna" ["API"; "Voice - Calls"]
           (Some "Elevated error rates") (Some "Mon, 03 Nov 2025 14:32:00 +0000")), []) ∧
  RSSAdapter.process_incident_async (Examples.online [] ["Voice"]) BolnaAdapter.class
    (Examples.incident_with_link "https://status.bolna.ai/incident/9") [] =
    (Ok (RSSAdapter._format_incidents "Bolna" ["Voice"]
           (Some "Voice calls failing") (Some "Mon, 03 Nov 2025 14:32:00 +0000")),
     ["https://status.bolna.ai/incident/9"]).
Proof.
  split.
  - apply (proj1 (cascade_short_circuits (Examples.online [] ["Voice"]) BolnaAdapter.class
                    Examples.incident_with_list [])).
    vm_compute. discriminate.
  - apply (proj2 (cascade_short_circuits (Examples.online [] ["Voice"]) BolnaAdapter.class
                    (Examples.incident_with_link "https://status.bolna.ai/incident/9") [])
             eq_refl "bolna" "https://status.bolna.ai/incident/9" ["Voice"]
             ["https://status.bolna.ai/incident/9"]).
    all: first [reflexivity | discriminate].
Defined.

(** ** The terminal fallback *)


Lemma claude_fallback_nonempty {W : Type} (incident : dict) (t : string) (w : W) :
  get_default incident "title" "" = Some t →
  ∃ services, services ≠ [] ∧
    ClaudeAdapter._extract_fallback_services incident w = (Ok services, w).
Proof.
  intros Ht. unfold ClaudeAdapter._extract_fallback_services, lowered_title. rewrite Ht.
  repeat case_match; eexists; (split; [| reflexivity]); discriminate.
Qed.



(** C7, at the failing input. An item whose title element has no text yields
    an incident whose title is [None]; strategy 1 finds nothing in ["N/A"],
    strategy 2 is skipped for the link ["N/A"], and the keyword fallback
    raises on [None.lower()]: no list is returned at all. *)
Theorem fallback_raises_on_empty_title {W : Type} (ext : RSSAdapter.Externals W)
    (g : string) (w : W) :
  RSSAdapter.process_incident_async ext BolnaAdapter.class
    (RSSParser.incident_of_item (Examples.item_empty_title g)) w = (Raise "AttributeError", w) ∧
  RSSAdapter.process_incident_async ext ClaudeAdapter.class
    (RSSParser.incident_of_item (Examples.item_empty_title g)) w = (Raise "AttributeError", w).
Proof.
  assert (Hd : get_default (RSSParser.incident_of_item (Examples.item_empty_title g))
                 "description" "" = Some "N/A").
  { unfold get_default. by rewrite incident_description_entry. }
  assert (Hl : get_default (RSSParser.incident_of_item (Examples.item_empty_title g))
                 "link" "" = Some "N/A").
  { unfold get_default. by rewrite incident_link_entry. }
  assert (Ht : get_default (RSSParser.incident_of_item (Examples.item_empty_title g))
                 "title" "" = None).
  { unfold get_default. by rewrite incident_title_entry. }
  split.
  - rewrite process_after_strategy1 by (rewrite Hd; reflexivity).
    rewrite Hl, strategy2_skips_na_and_empty by auto.
    unfold RSSAdapter.strategy3. simpl.
    unfold BolnaAdapter._extract_fallback_services, lowered_title. by rewrite Ht.
  - rewrite process_after_strategy1 by (rewrite Hd; reflexivity).
    rewrite Hl, strategy2_skips_na_and_empty by auto.
    unfold RSSAdapter.strategy3. simpl.
    unfold ClaudeAdapter._extract_fallback_services, lowered_title. by rewrite Ht.
Qed.

(** C10. The four fields of a parsed item are always present in the incident
    dictionary, with ["N/A"] for a missing element (and the element's text,
    which is [None] for an element without text, otherwise); a link ["N/A"]
    skips strategy 2 as the empty link does: the page parser is not called
    and the cascade goes on to the fallback in the same world. *)
Theorem na_sentinel_skips_strategy2 {W : Type} (ext : RSSAdapter.Externals W)
    (self : RSSAdapter.Class W) (item : RSSParser.Item) (w : W) :
  let incident := RSSParser.incident_of_item item in
  (incident !! "title" = Some (RSSParser.text_or_na (RSSParser.title item)) ∧
   incident !! "link" = Some (RSSParser.text_or_na (RSSParser.link item)) ∧
   incident !! "pub_date" = Some (RSSParser.text_or_na (RSSParser.pubDate item)) ∧
   incident !! "description" = Some (RSSParser.text_or_na (RSSParser.description item))) ∧
  (RSSParser.title item = None → get incident "title" = Some "N/A") ∧
  (RSSParser.link item = None → get incident "link" = Some "N/A") ∧
  (RSSParser.pubDate item = None → get incident "pub_date" = Some "N/A") ∧
  (RSSParser.description item = None → get incident "description" = Some "N/A") ∧
  RSSAdapter.strategy2 ext self (Some "N/A") w = (None, w) ∧
  RSSAdapter.strategy2 ext self (Some "") w = (None, w) ∧
  (RSSParser.link item = None →
   RSSParser.extract_services_from_html (RSSAdapter.charref_sub ext)
     (get_default incident "description" "") = [] →
   RSSAdapter.process_incident_async ext self incident w =
     RSSAdapter.strategy3 self incident
       (get_default incident "title" "Unknown Incident")
       (get_default incident "pub_date" "Unknown Time") w).
Proof.
  intros incident. subst incident.
  split; [| split; [| split; [| split; [| split; [| split; [| split]]]]]].
  - auto using incident_title_entry, incident_link_entry, incident_pub_date_entry,
      incident_description_entry.
  - intros H. unfold get. by rewrite incident_title_entry, H.
  - intros H. unfold get. by rewrite incident_link_entry, H.
  - intros H. unfold get. by rewrite incident_pub_date_entry, H.
  - intros H. unfold get. by rewrite incident_description_entry, H.
  - apply strategy2_skips_na_and_empty. auto.
  - apply strategy2_skips_na_and_empty. auto.
  - intros Hlink Hrss. rewrite process_after_strategy1 by exact Hrss.
    assert (Hl : get_default (RSSParser.incident_of_item item) "link" "" = Some "N/A").
    { unfold get_default. by rewrite incident_link_entry, Hlink. }
    rewrite Hl, strategy2_skips_na_and_empty by auto. reflexivity.
Qed.

Lemma na_sentinel_skips_strategy2_witness :
  get (RSSParser.incident_of_item (Examples.item_titled "API errors" "x1")) "link" = Some "N/A" ∧
  RSSAdapter.process_incident_async (Examples.online [] ["Voice"]) BolnaAdapter.class
    (RSSParser.incident_of_item (Examples.item_titled "API errors" "x1")) [] =
    (Ok (RSSAdapter._format_incidents "Bolna" ["API"] (Some "API errors") (Some "N/A")), []).
Proof.
  pose proof (na_sentinel_skips_strategy2 (Examples.online [] ["Voice"]) BolnaAdapter.class
                (Examples.item_titled "API errors" "x1") [])
    as (_ & _ & Hlink & _ & _ & _ & _ & Hprocess).
  split.
  - exact (Hlink eq_refl).
  - rewrite (Hprocess eq_refl eq_refl). reflexivity.
Defined.

(** ** The timestamp of [format_incident] *)







(** ** Group and component of a service *)




(** ** The embedded list of the description *)


















(** ** The seen-set *)

Import Watcher.

Lemma seen_of_mark_seen (ids : seen_ids) (n : string) (id : option string) :
  seen_of (mark_seen ids n id) n = seen_of ids n ∪ {[id]}.
Proof. unfold seen_of at 1, mark_seen. by rewrite lookup_insert_eq. Qed.

Lemma seen_of_mark_seen_ne (ids : seen_ids) (n m : string) (id : option string) :
  m ≠ n → seen_of (mark_seen ids n id) m = seen_of ids m.
Proof. intros H. unfold seen_of, mark_seen. by rewrite lookup_insert_ne. Qed.

Lemma elem_of_printed banner n incident processed ev :
  ev ∈ printed banner n incident processed → ev = banner n incident processed.
Proof. destruct processed; simpl; [by intros ?%elem_of_nil | by intros ?%list_elem_of_singleton]. Qed.

(** ** The loop over the incidents of one adapter *)

Section Loops.
Context {W : Type} (n : string) (adapter : BaseAdapter.Adapter W).

(** What [check_loop] guarantees: other adapters' sets are untouched, the
    adapter's own set only grows, every incident processed or announced was
    in the list, was new and is marked at the end, and a loop that ends
    without an exception leaves every id of the list marked. *)
Lemma check_loop_spec (incidents : list dict) (ids : seen_ids) (w : W)
    (s : step W) (err : option string) :
  check_loop n adapter incidents ids w = (s, err) →
  (∀ m, m ≠ n → seen_of (last_seen_ids s) m = seen_of ids m) ∧
  seen_of ids n ⊆ seen_of (last_seen_ids s) n ∧
  (∀ ev, ev ∈ output s →
     ∃ incident, (ev = Processing n incident ∨ ∃ p, ev = NewUpdate n incident p) ∧
       incident ∈ incidents ∧ (get incident "id" ∉ seen_of ids n) ∧
       get incident "id" ∈ seen_of (last_seen_ids s) n) ∧
  (err = None → ∀ incident, incident ∈ incidents →
     get incident "id" ∈ seen_of (last_seen_ids s) n).
Proof.
  revert ids w s err. induction incidents as [| incident rest IH]; intros ids w s err.
  - intros [= <- <-]. simpl. repeat split; [set_solver | | set_solver].
    intros ev H. by apply elem_of_nil in H.
  - cbn [check_loop]. destruct (decide (get incident "id" ∈ seen_of ids n)) as [Hseen | Hnew].
    + intros H. destruct (IH _ _ _ _ H) as (Hframe & Hmono & Hev & Hall).
      repeat split; [done | done | | ].
      * intros ev Hin. destruct (Hev ev Hin) as (i & Hi & Hmem & Hnot & Hmark).
        exists i. repeat split; [done | set_solver | done | done].
      * intros Herr i [-> | Hi]%elem_of_cons; [set_solver | by apply Hall].
    + destruct (_process_incident adapter incident w) as [[processed | e] w1].
      * destruct (check_loop n adapter rest (mark_seen ids n (get incident "id")) w1)
          as [s' err'] eqn:Hrest.
        intros [= <- <-]. cbn [last_seen_ids output].
        destruct (IH _ _ _ _ Hrest) as (Hframe & Hmono & Hev & Hall).
        rewrite seen_of_mark_seen in Hmono.
        repeat split.
        -- intros m Hm. rewrite Hframe by done. by apply seen_of_mark_seen_ne.
        -- set_solver.
        -- intros ev [-> | [Hin | Hin]%elem_of_app]%elem_of_cons.
           ++ exists incident. repeat split; [by left | set_solver | done | set_solver].
           ++ apply elem_of_printed in Hin as ->.
              exists incident. repeat split; [right; eauto | set_solver | done | set_solver].
           ++ destruct (Hev ev Hin) as (i & Hi & Hmem & Hnot & Hmark).
              rewrite seen_of_mark_seen in Hnot.
              exists i. repeat split; [done | set_solver | set_solver | done].
        -- intros Herr i [-> | Hi]%elem_of_cons; [set_solver | by apply Hall].
      * intros [= <- <-]. cbn [last_seen_ids output].
        repeat split.
        -- intros m Hm. by apply seen_of_mark_seen_ne.
        -- rewrite seen_of_mark_seen. set_solver.
        -- intros ev ->%list_elem_of_singleton. exists incident.
           rewrite seen_of_mark_seen. repeat split; [by left | set_solver | done | set_solver].
        -- discriminate.
Qed.

(** What [initial_loop] guarantees: the same frame and growth; its events
    are calls and startup displays of incidents of the list, never an
    announcement; without an exception every id of the list is marked; the
    first id is marked in any case; and nothing else is marked. *)
Lemma initial_loop_spec (incidents : list dict) (ids : seen_ids) (w : W)
    (s : step W) (err : option string) :
  initial_loop n adapter incidents ids w = (s, err) →
  (∀ m, m ≠ n → seen_of (last_seen_ids s) m = seen_of ids m) ∧
  seen_of ids n ⊆ seen_of (last_seen_ids s) n ∧
  (∀ ev, ev ∈ output s →
     ∃ incident, (ev = Processing n incident ∨ ∃ p, ev = InitialStatus n incident p) ∧
       incident ∈ incidents) ∧
  (err = None → ∀ incident, incident ∈ incidents →
     get incident "id" ∈ seen_of (last_seen_ids s) n) ∧
  (∀ incident rest, incidents = incident :: rest →
     get incident "id" ∈ seen_of (last_seen_ids s) n) ∧
  (∀ id, id ∈ seen_of (last_seen_ids s) n →
     id ∈ seen_of ids n ∨ ∃ incident, incident ∈ incidents ∧ get incident "id" = id).
Proof.
  revert ids w s err. induction incidents as [| incident rest IH]; intros ids w s err.
  - intros [= <- <-]. simpl. repeat split; [set_solver | | set_solver | done | auto].
    intros ev H. by apply elem_of_nil in H.
  - cbn [initial_loop].
    destruct (_process_incident adapter incident w) as [[processed | e] w1].
    + destruct (initial_loop n adapter rest (mark_seen ids n (get incident "id")) w1)
        as [s' err'] eqn:Hrest.
      intros [= <- <-]. cbn [last_seen_ids output].
      destruct (IH _ _ _ _ Hrest) as (Hframe & Hmono & Hev & Hall & _ & Hupper).
      rewrite seen_of_mark_seen in Hmono.
      repeat split.
      * intros m Hm. rewrite Hframe by done. by apply seen_of_mark_seen_ne.
      * set_solver.
      * intros ev [-> | [Hin | Hin]%elem_of_app]%elem_of_cons.
        -- exists incident. split; [by left | set_solver].
        -- apply elem_of_printed in Hin as ->.
           exists incident. split; [right; eauto | set_solver].
        -- destruct (Hev ev Hin) as (i & Hi & Hmem). exists i. split; [done | set_solver].
      * intros Herr i [-> | Hi]%elem_of_cons; [set_solver | by apply Hall].
      * intros i r [= <- <-]. set_solver.
      * intros id Hid. destruct (Hupper id Hid) as [Hold | (i & Hi & <-)].
        -- rewrite seen_of_mark_seen in Hold.
           apply elem_of_union in Hold as [Hold | ->%elem_of_singleton]; [by left |].
           right. exists incident. split; [set_solver | done].
        -- right. exists i. split; [set_solver | done].
    + intros [= <- <-]. cbn [last_seen_ids output].
      repeat split.
      * intros m Hm. by apply seen_of_mark_seen_ne.
      * rewrite seen_of_mark_seen. set_solver.
      * intros ev ->%list_elem_of_singleton. exists incident. split; [by left | set_solver].
      * discriminate.
      * intros i r [= <- <-]. rewrite seen_of_mark_seen. set_solver.
      * intros id. rewrite seen_of_mark_seen.
        intros [Hold | ->%elem_of_singleton]%elem_of_union; [by left |].
        right. exists incident. split; [set_solver | done].
Qed.

End Loops.

(** ** One adapter, then all of them *)

Section Passes.
Context {W : Type} (registry : AdapterRegistry.registry W).

(** The two ways [with_adapter] can end: an error before the loop, or the
    loop on the fetched list, followed by the error it raised, if any. *)
Lemma with_adapter_cases
    (loop : string → BaseAdapter.Adapter W → list dict → seen_ids → W → step W * option string)
    (n : string) (ids : seen_ids) (w : W) :
  (∃ e, last_seen_ids (with_adapter registry loop n ids w) = ids ∧
        output (with_adapter registry loop n ids w) = [ErrorLogged n e]) ∨
  (∃ adapter l w1 s err,
      AdapterRegistry.get_adapter registry n = Ok adapter ∧
      _fetch_incidents_async adapter w = (Ok l, w1) ∧
      loop n adapter l ids w1 = (s, err) ∧
      last_seen_ids (with_adapter registry loop n ids w) = last_seen_ids s ∧
      output (with_adapter registry loop n ids w) =
        Fetched n l :: output s ++
          match err with Some e => [ErrorLogged n e] | None => [] end).
Proof.
  unfold with_adapter.
  destruct (AdapterRegistry.get_adapter registry n) as [adapter | e] eqn:Hget; [| left; eauto].
  destruct (_fetch_incidents_async adapter w) as [[l | e] w1] eqn:Hfetch; [| left; eauto].
  destruct (loop n adapter l ids w1) as [s [e |]] eqn:Hloop; right.
  - exists adapter, l, w1, s, (Some e). repeat split; done.
  - exists adapter, l, w1, s, None. rewrite app_nil_r. repeat split; done.
Qed.

(** One steady-state pass over one adapter. *)
Lemma check_adapter_spec (n : string) (ids : seen_ids) (w : W) :
  let s := check_adapter registry n ids w in
  (∀ m, m ≠ n → seen_of (last_seen_ids s) m = seen_of ids m) ∧
  seen_of ids n ⊆ seen_of (last_seen_ids s) n ∧
  (∀ ev, ev ∈ output s → source ev = n) ∧
  (∀ incident,
     Processing n incident ∈ output s ∨ (∃ p, NewUpdate n incident p ∈ output s) →
     ∃ l, Fetched n l ∈ output s ∧ incident ∈ l ∧
       (get incident "id" ∉ seen_of ids n) ∧
       get incident "id" ∈ seen_of (last_seen_ids s) n) ∧
  (∀ l, Fetched n l ∈ output s → (∀ e, ErrorLogged n e ∉ output s) →
     ∀ incident, incident ∈ l → get incident "id" ∈ seen_of (last_seen_ids s) n).
Proof.
  intros s. subst s. unfold check_adapter.
  destruct (with_adapter_cases check_loop n ids w)
    as [(e & -> & ->) | (adapter & l & w1 & s & err & _ & _ & Hloop & -> & ->)].
  - repeat split; [set_solver | | |].
    + by intros ev ->%list_elem_of_singleton.
    + intros incident [H | [p H]]; apply list_elem_of_singleton in H; discriminate.
    + intros l H. apply list_elem_of_singleton in H. discriminate.
  - destruct (check_loop_spec n adapter l ids w1 s err Hloop) as (Hframe & Hmono & Hev & Hall).
    assert (Hloop_ev : ∀ ev, ev ∈ output s →
              ∃ incident, (ev = Processing n incident ∨ ∃ p, ev = NewUpdate n incident p)).
    { intros ev Hin. destruct (Hev ev Hin) as (i & Hi & _). eauto. }
    repeat split; [done | done | | |].
    + intros ev [-> | [Hin | Hin]%elem_of_app]%elem_of_cons; [done | |].
      * destruct (Hloop_ev ev Hin) as (i & [-> | [p ->]]); done.
      * destruct err; [by apply list_elem_of_singleton in Hin as -> | by apply elem_of_nil in Hin].
    + intros incident Hin. exists l. split; [set_solver |].
      assert (Hin' : ∃ ev, ev ∈ output s ∧
                (ev = Processing n incident ∨ ∃ p, ev = NewUpdate n incident p)).
      { destruct Hin as [Hin | [p Hin]].
        - exists (Processing n incident). split; [| by left].
          apply elem_of_cons in Hin as [Hin | [Hin | Hin]%elem_of_app]; [done | done |].
          destruct err; [by apply list_elem_of_singleton in Hin | by apply elem_of_nil in Hin].
        - exists (NewUpdate n incident p). split; [| right; eauto].
          apply elem_of_cons in Hin as [Hin | [Hin | Hin]%elem_of_app]; [done | done |].
          destruct err; [by apply list_elem_of_singleton in Hin | by apply elem_of_nil in Hin]. }
      destruct Hin' as (ev & Hin' & Hshape).
      destruct (Hev ev Hin') as (i & Hi & Hmem & Hnot & Hmark).
      assert (i = incident) as ->.
      { destruct Hshape as [-> | [p ->]], Hi as [Hi | [p' Hi]]; congruence. }
      done.
    + intros l' Hfetched Hno_err incident Hin.
      assert (l' = l) as ->.
      { apply elem_of_cons in Hfetched as [Hfetched | [Hfetched | Hfetched]%elem_of_app].
        - congruence.
        - destruct (Hloop_ev _ Hfetched) as (i & [? | [p ?]]); discriminate.
        - destruct err; [by apply list_elem_of_singleton in Hfetched
                        | by apply elem_of_nil in Hfetched]. }
      apply Hall; [| done]. destruct err as [e |]; [| done].
      exfalso. apply (Hno_err e). set_solver.
Qed.

(** A steady-state pass over a list of adapters. *)
Lemma check_all_spec (names : list string) (ids : seen_ids) (w : W) :
  let s := for_each (check_adapter registry) names ids w in
  (∀ m, seen_of ids m ⊆ seen_of (last_seen_ids s) m) ∧
  (∀ m incident,
     Processing m incident ∈ output s ∨ (∃ p, NewUpdate m incident p ∈ output s) →
     ∃ l, Fetched m l ∈ output s ∧ incident ∈ l ∧
       (get incident "id" ∉ seen_of ids m) ∧
       get incident "id" ∈ seen_of (last_seen_ids s) m) ∧
  (∀ m l, Fetched m l ∈ output s → (∀ e, ErrorLogged m e ∉ output s) →
     ∀ incident, incident ∈ l → get incident "id" ∈ seen_of (last_seen_ids s) m).
Proof.
  revert ids w. induction names as [| n rest IH]; intros ids w s; subst s.
  - simpl. repeat split; [set_solver | |].
    + intros m incident [H | [p H]]; by apply elem_of_nil in H.
    + intros m l H. by apply elem_of_nil in H.
  - cbn [for_each last_seen_ids output].
    set (s1 := check_adapter registry n ids w).
    destruct (check_adapter_spec n ids w) as (Hframe & Hmono & Hsrc & Hnew & Hall).
    fold s1 in Hframe, Hmono, Hsrc, Hnew, Hall.
    destruct (IH (last_seen_ids s1) (world s1)) as (Hmono' & Hnew' & Hall').
    set (s2 := for_each (check_adapter registry) rest (last_seen_ids s1) (world s1)) in *.
    assert (Hmono1 : ∀ m, seen_of ids m ⊆ seen_of (last_seen_ids s1) m).
    { intros m. destruct (decide (m = n)) as [-> | Hne]; [done | by rewrite Hframe]. }
    repeat split.
    + intros m. specialize (Hmono1 m). specialize (Hmono' m). set_solver.
    + intros m incident Hin.
      assert (Hcases :
        (Processing m incident ∈ output s1 ∨ (∃ p, NewUpdate m incident p ∈ output s1)) ∨
        (Processing m incident ∈ output s2 ∨ (∃ p, NewUpdate m incident p ∈ output s2))).
      { destruct Hin as [Hin | [p Hin]]; apply elem_of_app in Hin as [Hin | Hin]; eauto. }
      destruct Hcases as [H1 | H2].
      * assert (m = n) as ->.
        { destruct H1 as [H1 | [p H1]]; by apply Hsrc in H1. }
        destruct (Hnew incident H1) as (l & Hl & Hmem & Hnot & Hmark).
        exists l. repeat split; [set_solver | done | done |].
        specialize (Hmono' n). set_solver.
      * destruct (Hnew' m incident H2) as (l & Hl & Hmem & Hnot & Hmark).
        exists l. repeat split; [set_solver | done | | done].
        specialize (Hmono1 m). set_solver.
    + intros m l Hfetched Hno_err incident Hin.
      apply elem_of_app in Hfetched as [H1 | H2].
      * assert (m = n) as -> by (by apply Hsrc in H1).
        specialize (Hmono' n).
        assert (get incident "id" ∈ seen_of (last_seen_ids s1) n); [| set_solver].
        apply (Hall l); [done | | done]. intros e He. apply (Hno_err e). set_solver.
      * apply (Hall' m l); [done | | done]. intros e He. apply (Hno_err e). set_solver.
Qed.

End Passes.

(** ** Two consecutive cycles *)

(** C1, as the code has it. When no error was logged for the adapter in the
    first cycle and every list it returns in the second cycle is one it
    returned in the first, every id of the first cycle's lists is marked
    after the first cycle, and the second cycle neither processes nor
    announces any incident of that adapter. *)
Theorem unchanged_list_emits_nothing {W : Type} (registry : AdapterRegistry.registry W)
    (ids : seen_ids) (w w' : W) (n : string) :
  let s1 := check_incidents registry ids w in
  let s2 := check_incidents registry (last_seen_ids s1) w' in
  (∀ e, ErrorLogged n e ∉ output s1) →
  (∀ l, Fetched n l ∈ output s2 → Fetched n l ∈ output s1) →
  (∀ l incident, Fetched n l ∈ output s1 → incident ∈ l →
     get incident "id" ∈ seen_of (last_seen_ids s1) n) ∧
  (∀ incident, (Processing n incident ∉ output s2) ∧
     ∀ processed, NewUpdate n incident processed ∉ output s2).
Proof.
  intros s1 s2 Hno_err Hsame.
  destruct (check_all_spec registry (AdapterRegistry.list_adapters registry) ids w)
    as (_ & _ & Hall1).
  destruct (check_all_spec registry (AdapterRegistry.list_adapters registry)
              (last_seen_ids s1) w') as (_ & Hnew2 & _).
  fold (check_incidents registry ids w) in Hall1. fold s1 in Hall1.
  fold (check_incidents registry (last_seen_ids s1) w') in Hnew2. fold s2 in Hnew2.
  assert (Hmarked : ∀ l incident, Fetched n l ∈ output s1 → incident ∈ l →
            get incident "id" ∈ seen_of (last_seen_ids s1) n).
  { intros l incident Hl Hin. by apply (Hall1 n l). }
  split; [exact Hmarked |].
  assert (Hnone : ∀ incident,
            ¬ (Processing n incident ∈ output s2 ∨ ∃ p, NewUpdate n incident p ∈ output s2)).
  { intros incident Hin. destruct (Hnew2 n incident Hin) as (l & Hl & Hmem & Hnot & _).
    apply Hnot. apply (Hmarked l); [by apply Hsame | done]. }
  intros incident. split.
  - intros H. apply (Hnone incident). by left.
  - intros p H. apply (Hnone incident). right. eauto.
Qed.

Lemma unchanged_list_emits_nothing_witness :
  let s1 := check_incidents Examples.steady_registry ∅ [] in
  let s2 := check_incidents Examples.steady_registry (last_seen_ids s1) [] in
  Processing "bolna" (RSSParser.incident_of_item (Examples.item_titled "API errors" "x1"))
    ∉ output s2.
Proof.
  intros s1 s2.
  assert (Hno_err : ∀ e, ErrorLogged "bolna" e ∉ output s1).
  { intros e H. vm_compute in H.
    repeat (apply elem_of_cons in H as [H | H]; [discriminate H |]). by apply elem_of_nil in H. }
  assert (Hsame : ∀ l, Fetched "bolna" l ∈ output s2 → Fetched "bolna" l ∈ output s1).
  { intros l H. apply list_elem_of_In. apply list_elem_of_In in H.
    vm_compute in H. vm_compute.
    destruct H as [H | H]; [left; exact H | destruct H]. }
  exact (proj1 (proj2 (unchanged_list_emits_nothing Examples.steady_registry ∅ [] []
                         "bolna" Hno_err Hsame) _)).
Defined.

(** C1 as stated fails. The source returns the same two incidents in both
    cycles; in the first, the detail request of the first incident fails,
    the second incident is never reached and nothing is printed; in the
    second cycle the second incident is new and is announced. *)
Lemma exception_leaves_later_incidents_unseen :
  let s1 := check_incidents Examples.failing_registry ∅ () in
  let s2 := check_incidents Examples.failing_registry (last_seen_ids s1) () in
  let incidents :=
    [Examples.json_incident "A" "Login errors"; Examples.json_incident "B" "Slow responses"] in
  head (output s1) = Some (Fetched "openai" incidents) ∧
  head (output s2) = Some (Fetched "openai" incidents) ∧
  List.filter is_emission (output s1) = [] ∧
  List.filter is_emission (output s2) =
    [NewUpdate "openai" (Examples.json_incident "B" "Slow responses")
       [list_to_map [("group", Some "API"); ("component", Some "Chat");
                     ("time_created", Some "2025-11-03T14:32:00Z");
                     ("status_message", Some "Slow responses")]]].
Proof. vm_compute. repeat split. Qed.

(** ** Never again *)

Lemma monitor_never_again {W : Type} (registry : AdapterRegistry.registry W)
    (sleep : W → W) (n : string) (id : option string) (cycles : nat) :
  ∀ (ids : seen_ids) (w : W), id ∈ seen_of ids n →
  ∀ incident, get incident "id" = id →
    ¬ (Processing n incident ∈ output (monitor registry sleep cycles ids w) ∨
       ∃ p, NewUpdate n incident p ∈ output (monitor registry sleep cycles ids w)).
Proof.
  induction cycles as [| cycles IH]; intros ids w Hid incident Hinc.
  - simpl. intros [H | [p H]]; by apply elem_of_nil in H.
  - cbn [monitor output].
    destruct (check_all_spec registry (AdapterRegistry.list_adapters registry) ids w)
      as (Hmono & Hnew & _).
    fold (check_incidents registry ids w) in Hmono, Hnew.
    set (s1 := check_incidents registry ids w) in *.
    intros Hin.
    assert (Hcases :
      (Processing n incident ∈ output s1 ∨ (∃ p, NewUpdate n incident p ∈ output s1)) ∨
      (Processing n incident ∈
         output (monitor registry sleep cycles (last_seen_ids s1) (sleep (world s1))) ∨
       (∃ p, NewUpdate n incident p ∈
               output (monitor registry sleep cycles (last_seen_ids s1) (sleep (world s1)))))).
    { destruct Hin as [Hin | [p Hin]]; apply elem_of_app in Hin as [Hin | Hin]; eauto. }
    destruct Hcases as [H1 | H2].
    + destruct (Hnew n incident H1) as (l & _ & _ & Hnot & _). apply Hnot. by rewrite Hinc.
    + apply (IH (last_seen_ids s1) (sleep (world s1))) in H2; [done | | done].
      specialize (Hmono n). set_solver.
Qed.

(** C2. In the loop, an incident that is new is marked before it is
    processed, so also when its processing raises; and once the processing
    of an incident was attempted in a cycle, its id is in the seen-set, and
    no later cycle, however many and in whatever world, processes or
    announces an incident with that id for that adapter. *)
Theorem marked_before_processing {W : Type} (registry : AdapterRegistry.registry W)
    (sleep : W → W) (ids : seen_ids) (w : W) (n : string) (incident : dict) :
  (∀ (adapter : BaseAdapter.Adapter W) rest ids0 (w0 w1 : W) e,
     (get incident "id" ∉ seen_of ids0 n) →
     _process_incident adapter incident w0 = (Raise e, w1) →
     check_loop n adapter (incident :: rest) ids0 w0 =
       ({| last_seen_ids := mark_seen ids0 n (get incident "id");
           output := [Processing n incident];
           world := w1 |}, Some e)) ∧
  (Processing n incident ∈ output (check_incidents registry ids w) →
   get incident "id" ∈ seen_of (last_seen_ids (check_incidents registry ids w)) n ∧
   ∀ cycles w' incident', get incident' "id" = get incident "id" →
     (Processing n incident' ∉
        output (monitor registry sleep cycles
                  (last_seen_ids (check_incidents registry ids w)) w')) ∧
     ∀ processed, NewUpdate n incident' processed ∉
       output (monitor registry sleep cycles
                 (last_seen_ids (check_incidents registry ids w)) w')).
Proof.
  split.
  - intros adapter rest ids0 w0 w1 e Hnew Hraise. cbn [check_loop].
    destruct (decide (get incident "id" ∈ seen_of ids0 n)); [done |].
    by rewrite Hraise.
  - intros Hin.
    destruct (check_all_spec registry (AdapterRegistry.list_adapters registry) ids w)
      as (_ & Hnew & _).
    fold (check_incidents registry ids w) in Hnew.
    destruct (Hnew n incident (or_introl Hin)) as (l & _ & _ & _ & Hmark).
    split; [exact Hmark |].
    intros cycles w' incident' Hid.
    pose proof (monitor_never_again registry sleep n (get incident "id") cycles
                  _ w' Hmark incident' Hid) as Hnever.
    split.
    + intros H. apply Hnever. by left.
    + intros p H. apply Hnever. right. eauto.
Qed.

Lemma marked_before_processing_witness :
  let incident := Examples.json_incident "A" "Login errors" in
  let s1 := check_incidents Examples.failing_registry ∅ () in
  Some "A" ∈ seen_of (last_seen_ids s1) "openai" ∧
  Processing "openai" incident ∉
    output (monitor Examples.failing_registry (λ w, w) 3 (last_seen_ids s1) ()).
Proof.
  intros incident s1.
  destruct (marked_before_processing Examples.failing_registry (λ w, w) ∅ () "openai" incident)
    as [_ Hnever].
  assert (Hin : Processing "openai" incident ∈ output s1).
  { apply list_elem_of_In. vm_compute. auto. }
  destruct (Hnever Hin) as [Hmark Hlater]. split.
  - exact Hmark.
  - exact (proj1 (Hlater 3 () incident eq_refl)).
Defined.

(** ** The startup pass *)

Section Startup.
Context {W : Type} (registry : AdapterRegistry.registry W).

Lemma initial_adapter_spec (n : string) (ids : seen_ids) (w : W) :
  let s := initial_adapter registry n ids w in
  (∀ m, m ≠ n → seen_of (last_seen_ids s) m = seen_of ids m) ∧
  seen_of ids n ⊆ seen_of (last_seen_ids s) n ∧
  (∀ ev, ev ∈ output s → source ev = n ∧ ∀ m, is_new_update m ev = false) ∧
  (∀ l, Fetched n l ∈ output s → (∀ e, ErrorLogged n e ∉ output s) →
     ∀ incident, incident ∈ firstn 3 l →
       get incident "id" ∈ seen_of (last_seen_ids s) n) ∧
  (∀ l id, Fetched n l ∈ output s → id ∈ seen_of (last_seen_ids s) n →
     id ∈ seen_of ids n ∨ ∃ incident, incident ∈ firstn 3 l ∧ get incident "id" = id) ∧
  (∀ incident rest, Fetched n (incident :: rest) ∈ output s →
     get incident "id" ∈ seen_of (last_seen_ids s) n).
Proof.
  intros s. subst s. unfold initial_adapter.
  destruct (with_adapter_cases registry
              (λ adapter_name adapter incidents,
                 initial_loop adapter_name adapter (firstn 3 incidents)) n ids w)
    as [(e & -> & ->) | (adapter & l & w1 & s & err & _ & _ & Hloop & -> & ->)].
  - split; [done |]. split; [done |]. split; [| split; [| split]].
    + by intros ev ->%list_elem_of_singleton.
    + intros l H. apply list_elem_of_singleton in H. discriminate.
    + intros l id H. apply list_elem_of_singleton in H. discriminate.
    + intros incident rest H. apply list_elem_of_singleton in H. discriminate.
  - destruct (initial_loop_spec n adapter (firstn 3 l) ids w1 s err Hloop)
      as (Hframe & Hmono & Hev & Hall & Hfirst & Hupper).
    assert (Hfetched : ∀ l', Fetched n l' ∈
              Fetched n l :: output s ++ match err with Some e => [ErrorLogged n e] | None => [] end →
              l' = l).
    { intros l' H. apply elem_of_cons in H as [H | [H | H]%elem_of_app].
      - congruence.
      - destruct (Hev _ H) as (i & [? | [p ?]] & _); discriminate.
      - destruct err; [by apply list_elem_of_singleton in H | by apply elem_of_nil in H]. }
    split; [done |]. split; [done |]. split; [| split; [| split]].
    + intros ev [-> | [Hin | Hin]%elem_of_app]%elem_of_cons; [done | |].
      * destruct (Hev ev Hin) as (i & [-> | [p ->]] & _); done.
      * destruct err; [by apply list_elem_of_singleton in Hin as -> | by apply elem_of_nil in Hin].
    + intros l' Hl' Hno_err incident Hin. apply Hfetched in Hl' as ->.
      apply Hall; [| done]. destruct err as [e |]; [| done].
      exfalso. apply (Hno_err e). set_solver.
    + intros l' id Hl' Hid. apply Hfetched in Hl' as ->. by apply Hupper.
    + intros incident rest Hl'. apply Hfetched in Hl' as <-. by eapply Hfirst.
Qed.

End Startup.

(** ** What one adapter contributes to a pass over all of them *)

Lemma filter_none {A : Type} (f : A → bool) (l : list A) :
  (∀ x, x ∈ l → f x = false) → List.filter f l = [].
Proof.
  induction l as [| x l IH]; [done |]. intros H. simpl.
  rewrite (H x) by set_solver. apply IH. intros y Hy. apply H. set_solver.
Qed.

Lemma filter_all {A : Type} (f : A → bool) (l : list A) :
  (∀ x, x ∈ l → f x = true) → List.filter f l = l.
Proof.
  induction l as [| x l IH]; [done |]. intros H. simpl.
  rewrite (H x) by set_solver. f_equal. apply IH. intros y Hy. apply H. set_solver.
Qed.


Section Projection.
Context {W : Type} (body : string → seen_ids → W → step W).
Hypothesis body_frame : ∀ n ids w m,
  m ≠ n → seen_of (last_seen_ids (body n ids w)) m = seen_of ids m.
Hypothesis body_source : ∀ n ids w ev, ev ∈ output (body n ids w) → source ev = n.

Lemma for_each_frame (names : list string) (ids : seen_ids) (w : W) (m : string) :
  m ∉ names → seen_of (last_seen_ids (for_each body names ids w)) m = seen_of ids m.
Proof.
  revert ids w. induction names as [| n rest IH]; intros ids w Hm; [done |].
  cbn [for_each last_seen_ids]. rewrite IH by set_solver.
  apply body_frame. set_solver.
Qed.

Lemma for_each_source (names : list string) (ids : seen_ids) (w : W) (ev : event) :
  ev ∈ output (for_each body names ids w) → source ev ∈ names.
Proof.
  revert ids w. induction names as [| n rest IH]; intros ids w; simpl.
  - by intros ?%elem_of_nil.
  - intros [H | H]%elem_of_app.
    + apply body_source in H as ->. set_solver.
    + apply IH in H. set_solver.
Qed.

(** With distinct names, the events of a pass that belong to one adapter are
    those of its own turn, which starts from its own seen-set as it was
    before the pass and leaves it as it is after the pass. *)
Lemma for_each_projection (names : list string) (n : string) (ids : seen_ids) (w : W) :
  NoDup names → n ∈ names →
  ∃ ids_at w_at,
    seen_of ids_at n = seen_of ids n ∧
    List.filter (λ ev, String.eqb (source ev) n) (output (for_each body names ids w)) =
      output (body n ids_at w_at) ∧
    seen_of (last_seen_ids (for_each body names ids w)) n =
      seen_of (last_seen_ids (body n ids_at w_at)) n.
Proof.
  revert ids w. induction names as [| m rest IH]; intros ids w Hnodup Hin.
  { by apply elem_of_nil in Hin. }
  apply NoDup_cons in Hnodup as [Hm Hnodup].
  cbn [for_each output last_seen_ids]. rewrite List.filter_app.
  destruct (decide (n = m)) as [-> | Hne].
  - exists ids, w. split; [done |]. split.
    + rewrite filter_all, filter_none, app_nil_r; [done | |].
      * intros ev Hev. apply for_each_source in Hev.
        apply String.eqb_neq. intros Heq. rewrite Heq in Hev. done.
      * intros ev Hev. apply body_source in Hev. by apply String.eqb_eq.
    + by apply for_each_frame.
  - destruct (IH (last_seen_ids (body m ids w)) (world (body m ids w)) Hnodup)
      as (ids_at & w_at & Hseen & Hout & Hlast); [set_solver |].
    exists ids_at, w_at. split; [| split].
    + rewrite Hseen. by apply body_frame.
    + rewrite filter_none; [done |].
      intros ev Hev. apply body_source in Hev. apply String.eqb_neq. congruence.
    + done.
Qed.

End Projection.


(** Registration keeps the names of the registry distinct. *)
Lemma register_adapter_nodup {W : Type} (registry registry' : AdapterRegistry.registry W)
    (n : string) (adapter : BaseAdapter.Adapter W) :
  NoDup (AdapterRegistry.list_adapters registry) →
  AdapterRegistry.register_adapter registry n adapter = Ok registry' →
  NoDup (AdapterRegistry.list_adapters registry').
Proof.
  unfold AdapterRegistry.register_adapter, AdapterRegistry.list_adapters.
  intros Hnodup. destruct (existsb _ registry) eqn:E; [discriminate |].
  intros [= <-]. rewrite fmap_app. apply NoDup_app. split; [done |]. split.
  - intros m Hm ->%list_elem_of_singleton.
    apply list_elem_of_fmap in Hm as (entry & Hfst & Hin).
    assert (existsb (λ entry, String.eqb (fst entry) n) registry = true); [| congruence].
    apply existsb_exists. exists entry. split; [by apply list_elem_of_In |].
    apply String.eqb_eq. done.
  - apply NoDup_singleton.
Qed.


Section StartupPass.
Context {W : Type} (registry : AdapterRegistry.registry W).

(** The startup pass over a list of adapters. *)
Lemma initial_all_spec (names : list string) (ids : seen_ids) (w : W) :
  let s := for_each (initial_adapter registry) names ids w in
  (∀ ev m, ev ∈ output s → is_new_update m ev = false) ∧
  (∀ m, seen_of ids m ⊆ seen_of (last_seen_ids s) m) ∧
  (∀ m l, Fetched m l ∈ output s → (∀ e, ErrorLogged m e ∉ output s) →
     ∀ incident, incident ∈ firstn 3 l →
       get incident "id" ∈ seen_of (last_seen_ids s) m).
Proof.
  revert ids w. induction names as [| n rest IH]; intros ids w s; subst s.
  - simpl. split; [| split]; [| set_solver |].
    + intros ev m H. by apply elem_of_nil in H.
    + intros m l H. by apply elem_of_nil in H.
  - cbn [for_each last_seen_ids output].
    destruct (initial_adapter_spec registry n ids w) as (Hframe & Hmono & Hsrc & Hall & _).
    set (s1 := initial_adapter registry n ids w) in *.
    destruct (IH (last_seen_ids s1) (world s1)) as (Hquiet' & Hmono' & Hall').
    set (s2 := for_each (initial_adapter registry) rest (last_seen_ids s1) (world s1)) in *.
    assert (Hmono1 : ∀ m, seen_of ids m ⊆ seen_of (last_seen_ids s1) m).
    { intros m. destruct (decide (m = n)) as [-> | Hne]; [done | by rewrite Hframe]. }
    split; [| split].
    + intros ev m [H | H]%elem_of_app; [| by apply Hquiet'].
      destruct (Hsrc ev H) as [_ Hq]. apply Hq.
    + intros m. specialize (Hmono1 m). specialize (Hmono' m). set_solver.
    + intros m l Hfetched Hno_err incident Hin.
      apply elem_of_app in Hfetched as [H1 | H2].
      * assert (m = n) as -> by (by destruct (Hsrc _ H1) as [? _]).
        specialize (Hmono' n).
        assert (get incident "id" ∈ seen_of (last_seen_ids s1) n); [| set_solver].
        apply (Hall l); [done | | done]. intros e He. apply (Hno_err e). set_solver.
      * apply (Hall' m l); [done | | done]. intros e He. apply (Hno_err e). set_solver.
Qed.


End StartupPass.




(** ** At most once *)

Lemma processed_ids_app (n : string) (a b : list event) :
  processed_ids n (a ++ b) = processed_ids n a ++ processed_ids n b.
Proof. apply omap_app. Qed.

Lemma announced_ids_app (n : string) (a b : list event) :
  announced_ids n (a ++ b) = announced_ids n a ++ announced_ids n b.
Proof. apply omap_app. Qed.

(** A stretch that processes nothing for the adapter. *)
Lemma at_most_once_silent (n : string) (ids ids' : seen_ids) (out : list event) :
  processed_ids n out = [] → announced_ids n out = [] →
  seen_of ids n ⊆ seen_of ids' n →
  at_most_once n ids out ids'.
Proof.
  intros Hp Ha Hsub. unfold at_most_once. rewrite Hp, Ha.
  split; [constructor |]. split; [| split; [done | constructor]].
  intros id H. by apply elem_of_nil in H.
Qed.

Lemma at_most_once_nil (n : string) (ids : seen_ids) : at_most_once n ids [] ids.
Proof. by apply at_most_once_silent. Qed.

(** Two stretches in a row. *)
Lemma at_most_once_app (n : string) (a b c : seen_ids) (o1 o2 : list event) :
  at_most_once n a o1 b → at_most_once n b o2 c → at_most_once n a (o1 ++ o2) c.
Proof.
  intros (Hnd1 & Hids1 & Hsub1 & Hann1) (Hnd2 & Hids2 & Hsub2 & Hann2).
  unfold at_most_once. rewrite processed_ids_app, announced_ids_app.
  split; [| split; [| split]].
  - apply NoDup_app. split; [done |]. split; [| done].
    intros id H1 H2. apply Hids1 in H1 as [_ H1]. apply Hids2 in H2 as [H2 _]. done.
  - intros id [H | H]%elem_of_app.
    + apply Hids1 in H as [Hnew Hmark]. split; [done | set_solver].
    + apply Hids2 in H as [Hnew Hmark]. split; [set_solver | done].
  - set_solver.
  - by apply sublist_app.
Qed.

(** Events of other adapters do not count. *)
Lemma ids_of_other_source (n : string) (out : list event) :
  (∀ ev, ev ∈ out → source ev ≠ n) → processed_ids n out = [] ∧ announced_ids n out = [].
Proof.
  induction out as [| ev out IH]; [done |]. intros H.
  destruct IH as [IH1 IH2]; [intros ev' Hev'; apply H; set_solver |].
  assert (Hev : source ev ≠ n) by (apply H; set_solver).
  unfold processed_ids, announced_ids in *. cbn [omap list_omap].
  rewrite IH1, IH2.
  destruct ev; simpl in *; try done; by destruct (decide _).
Qed.

Lemma printed_ids (n : string) (incident : dict) (processed : list dict) :
  processed_ids n (printed NewUpdate n incident processed) = [] ∧
  sublist (announced_ids n (printed NewUpdate n incident processed)) [get incident "id"].
Proof.
  destruct processed; simpl; [split; [done | apply sublist_nil_l] |].
  unfold announced_ids. simpl. destruct (decide (n = n)); [| done].
  split; [done | reflexivity].
Qed.

Section Once.
Context {W : Type} (registry : AdapterRegistry.registry W).

Lemma check_loop_once (n : string) (adapter : BaseAdapter.Adapter W)
    (incidents : list dict) (ids : seen_ids) (w : W) (s : step W) (err : option string) :
  check_loop n adapter incidents ids w = (s, err) →
  at_most_once n ids (output s) (last_seen_ids s).
Proof.
  revert ids w s err. induction incidents as [| incident rest IH]; intros ids w s err.
  - intros [= <- <-]. apply at_most_once_nil.
  - cbn [check_loop]. destruct (decide (get incident "id" ∈ seen_of ids n)) as [Hseen | Hnew].
    + apply IH.
    + assert (Hfirst : at_most_once n ids [Processing n incident]
                         (mark_seen ids n (get incident "id"))).
      { unfold at_most_once, processed_ids, announced_ids. simpl.
        destruct (decide (n = n)); [| done]. rewrite seen_of_mark_seen.
        split; [apply NoDup_singleton |]. split; [| split; [set_solver | apply sublist_nil_l]].
        intros id ->%list_elem_of_singleton. split; [done | set_solver]. }
      destruct (_process_incident adapter incident w) as [[processed | e] w1].
      * destruct (check_loop n adapter rest (mark_seen ids n (get incident "id")) w1)
          as [s' err'] eqn:Hrest.
        intros [= <- <-]. cbn [last_seen_ids output].
        apply IH in Hrest.
        change (Processing n incident :: printed NewUpdate n incident processed ++ output s')
          with ([Processing n incident] ++ printed NewUpdate n incident processed ++ output s').
        rewrite app_assoc. eapply at_most_once_app; [| exact Hrest].
        destruct Hfirst as (Hnd & Hids & Hsub & _).
        destruct (printed_ids n incident processed) as [Hp Ha].
        unfold at_most_once. rewrite processed_ids_app, announced_ids_app, Hp, app_nil_r.
        split; [done |]. split; [done |]. split; [done |].
        unfold processed_ids, announced_ids in *. simpl in *.
        destruct (decide (n = n)); [| done]. exact Ha.
      * intros [= <- <-]. exact Hfirst.
Qed.

Lemma check_adapter_once (n m : string) (ids : seen_ids) (w : W) :
  at_most_once n ids (output (check_adapter registry m ids w))
    (last_seen_ids (check_adapter registry m ids w)).
Proof.
  destruct (decide (m = n)) as [-> | Hne].
  - unfold check_adapter.
    destruct (with_adapter_cases registry check_loop n ids w)
      as [(e & -> & ->) | (adapter & l & w1 & s & err & _ & _ & Hloop & -> & ->)].
    + by apply at_most_once_silent.
    + apply check_loop_once in Hloop. destruct Hloop as (Hnd & Hids & Hsub & Hann).
      assert (Hp : processed_ids n (Fetched n l :: output s ++
                     match err with Some e => [ErrorLogged n e] | None => [] end) =
                   processed_ids n (output s)).
      { change (Fetched n l :: ?x) with ([Fetched n l] ++ x).
        rewrite !processed_ids_app. destruct err; simpl; by rewrite app_nil_r. }
      assert (Ha : announced_ids n (Fetched n l :: output s ++
                     match err with Some e => [ErrorLogged n e] | None => [] end) =
                   announced_ids n (output s)).
      { change (Fetched n l :: ?x) with ([Fetched n l] ++ x).
        rewrite !announced_ids_app. destruct err; simpl; by rewrite app_nil_r. }
      unfold at_most_once. rewrite Hp, Ha. done.
  - destruct (check_adapter_spec registry m ids w) as (Hframe & _ & Hsrc & _).
    destruct (ids_of_other_source n (output (check_adapter registry m ids w))) as [Hp Ha].
    { intros ev Hev. apply Hsrc in Hev. congruence. }
    apply at_most_once_silent; [done | done |]. by rewrite Hframe.
Qed.

Lemma check_all_once (n : string) (names : list string) (ids : seen_ids) (w : W) :
  at_most_once n ids (output (for_each (check_adapter registry) names ids w))
    (last_seen_ids (for_each (check_adapter registry) names ids w)).
Proof.
  revert ids w. induction names as [| m rest IH]; intros ids w.
  - apply at_most_once_nil.
  - cbn [for_each output last_seen_ids].
    eapply at_most_once_app; [apply check_adapter_once | apply IH].
Qed.

Lemma monitor_once (sleep : W → W) (n : string) (cycles : nat) (ids : seen_ids) (w : W) :
  at_most_once n ids (output (monitor registry sleep cycles ids w))
    (last_seen_ids (monitor registry sleep cycles ids w)).
Proof.
  revert ids w. induction cycles as [| cycles IH]; intros ids w.
  - apply at_most_once_nil.
  - cbn [monitor output last_seen_ids].
    eapply at_most_once_app; [apply check_all_once | apply IH].
Qed.

End Once.

(** X1. Over any number of steady-state cycles, in whatever world, no
    incident id of an adapter is processed twice and none is announced
    twice; the ids processed were not in the seen-set at the start. *)
Theorem processed_at_most_once {W : Type} (registry : AdapterRegistry.registry W)
    (sleep : W → W) (cycles : nat) (ids : seen_ids) (w : W) (n : string) :
  let out := output (monitor registry sleep cycles ids w) in
  NoDup (processed_ids n out) ∧
  NoDup (announced_ids n out) ∧
  (∀ id, id ∈ processed_ids n out → id ∉ seen_of ids n).
Proof.
  intros out. destruct (monitor_once registry sleep n cycles ids w) as (Hnd & Hids & _ & Hann).
  split; [done |]. split.
  - by eapply sublist_NoDup.
  - intros id Hid. by apply Hids.
Qed.

Lemma processed_at_most_once_witness :
  NoDup (processed_ids "openai"
           (output (monitor Examples.failing_registry (λ w, w) 3 ∅ ()))) ∧
  Some "A" ∉ seen_of (∅ : seen_ids) "openai".
Proof.
  destruct (processed_at_most_once Examples.failing_registry (λ w, w) 3 ∅ () "openai")
    as (Hnd & _ & Hnew).
  split; [exact Hnd |]. apply Hnew. apply list_elem_of_In. vm_compute. auto.
Defined.

(** ** The seen-sets only grow *)

Lemma monitor_grows {W : Type} (registry : AdapterRegistry.registry W) (sleep : W → W)
    (n : string) (cycles : nat) (ids : seen_ids) (w : W) :
  seen_of ids n ⊆ seen_of (last_seen_ids (monitor registry sleep cycles ids w)) n.
Proof. by destruct (monitor_once registry sleep n cycles ids w) as (_ & _ & H & _). Qed.

(** X2. Nothing is ever removed from a seen-set: the startup pass and the
    steady-state loop keep every id they found, a longer run keeps what a
    shorter run marked, and what the startup pass marked is still marked
    when [start_monitoring] is cut off, after any number of cycles. *)
Theorem seen_sets_only_grow {W : Type} (registry : AdapterRegistry.registry W)
    (sleep : W → W) (ids : seen_ids) (w : W) (n : string) (k j : nat) :
  seen_of ids n ⊆ seen_of (last_seen_ids (show_initial_status registry ids w)) n ∧
  seen_of ids n ⊆ seen_of (last_seen_ids (check_incidents registry ids w)) n ∧
  seen_of (last_seen_ids (monitor registry sleep k ids w)) n ⊆
    seen_of (last_seen_ids (monitor registry sleep (k + j) ids w)) n ∧
  seen_of (last_seen_ids (show_initial_status registry ∅ w)) n ⊆
    seen_of (last_seen_ids (start_monitoring registry sleep k w)) n.
Proof.
  split; [| split; [| split]].
  - by destruct (initial_all_spec registry (AdapterRegistry.list_adapters registry) ids w)
      as (_ & H & _).
  - by destruct (check_all_spec registry (AdapterRegistry.list_adapters registry) ids w)
      as (H & _).
  - revert ids w. induction k as [| k IH]; intros ids w.
    + apply monitor_grows.
    + cbn [plus monitor last_seen_ids]. apply IH.
  - unfold start_monitoring. cbn [last_seen_ids]. apply monitor_grows.
Qed.

(** ** What the startup pass marked is never announced *)

(** X3. When the startup pass fetched a list for an adapter and logged no
    error for it, no incident that carries the id of one of the first three
    incidents of that list is processed or announced by the loop that
    follows, however long it runs. *)
Theorem startup_ids_never_announced {W : Type} (registry : AdapterRegistry.registry W)
    (sleep : W → W) (cycles : nat) (w : W) (n : string) (l : list dict) :
  let s0 := show_initial_status registry ∅ w in
  let s1 := monitor registry sleep cycles (last_seen_ids s0) (world s0) in
  Fetched n l ∈ output s0 →
  (∀ e, ErrorLogged n e ∉ output s0) →
  ∀ incident incident',
    incident ∈ firstn 3 l → get incident' "id" = get incident "id" →
    (Processing n incident' ∉ output s1) ∧
    ∀ processed, NewUpdate n incident' processed ∉ output s1.
Proof.
  intros s0 s1 Hfetched Hno_err incident incident' Hin Hid.
  destruct (initial_all_spec registry (AdapterRegistry.list_adapters registry) ∅ w)
    as (_ & _ & Hall).
  fold (show_initial_status registry ∅ w) in Hall. fold s0 in Hall.
  pose proof (Hall n l Hfetched Hno_err incident Hin) as Hmark.
  pose proof (monitor_never_again registry sleep n (get incident "id") cycles
                (last_seen_ids s0) (world s0) Hmark incident' Hid) as Hnever.
  fold s1 in Hnever. split.
  - intros H. apply Hnever. by left.
  - intros p H. apply Hnever. right. eauto.
Qed.

Lemma startup_ids_never_announced_witness :
  let registry := Examples.bolna_registry Examples.growing_feed in
  let s0 := show_initial_status registry ∅ false in
  Processing "bolna" (RSSParser.incident_of_item (Examples.item_titled "API errors" "x1"))
    ∉ output (monitor registry (λ _, true) 2 (last_seen_ids s0) (world s0)).
Proof.
  intros registry s0.
  assert (Hfetched : Fetched "bolna"
            [RSSParser.incident_of_item (Examples.item_titled "API errors" "x1")] ∈ output s0).
  { apply list_elem_of_In. vm_compute. auto. }
  assert (Hno_err : ∀ e, ErrorLogged "bolna" e ∉ output s0).
  { intros e H. vm_compute in H.
    repeat (apply elem_of_cons in H as [H | H]; [discriminate H |]). by apply elem_of_nil in H. }
  refine (proj1 (startup_ids_never_announced registry (λ _, true) 2 false "bolna" _
                   Hfetched Hno_err _ _ _ eq_refl)).
  simpl. apply list_elem_of_singleton. reflexivity.
Defined.

(** ** Every adapter gets its turn *)

Lemma with_adapter_turn {W : Type} (registry : AdapterRegistry.registry W)
    (loop : string → BaseAdapter.Adapter W → list dict → seen_ids → W → step W * option string)
    (n : string) (ids : seen_ids) (w : W) :
  (∃ l, Fetched n l ∈ output (with_adapter registry loop n ids w)) ∨
  (∃ e, ErrorLogged n e ∈ output (with_adapter registry loop n ids w)).
Proof.
  destruct (with_adapter_cases registry loop n ids w)
    as [(e & _ & ->) | (adapter & l & w1 & s & err & _ & _ & _ & _ & ->)].
  - right. exists e. set_solver.
  - left. exists l. set_solver.
Qed.

Lemma for_each_turn {W : Type} (body : string → seen_ids → W → step W)
    (names : list string) (n : string) (ids : seen_ids) (w : W) :
  n ∈ names → ∃ ids_at w_at,
    ∀ ev, ev ∈ output (body n ids_at w_at) → ev ∈ output (for_each body names ids w).
Proof.
  revert ids w. induction names as [| m rest IH]; intros ids w Hin.
  { by apply elem_of_nil in Hin. }
  cbn [for_each output]. apply elem_of_cons in Hin as [-> | Hin].
  - exists ids, w. intros ev Hev. set_solver.
  - destruct (IH (last_seen_ids (body m ids w)) (world (body m ids w)) Hin)
      as (ids_at & w_at & H).
    exists ids_at, w_at. intros ev Hev. apply H in Hev. set_solver.
Qed.

(** X4. In the startup pass and in every steady-state cycle, each registered
    adapter is polled, whatever happened to the adapters before it: the
    output holds the list it returned, or the error logged for it. *)
Theorem every_adapter_gets_its_turn {W : Type} (registry : AdapterRegistry.registry W)
    (ids : seen_ids) (w : W) (n : string) :
  n ∈ AdapterRegistry.list_adapters registry →
  ((∃ l, Fetched n l ∈ output (check_incidents registry ids w)) ∨
   (∃ e, ErrorLogged n e ∈ output (check_incidents registry ids w))) ∧
  ((∃ l, Fetched n l ∈ output (show_initial_status registry ids w)) ∨
   (∃ e, ErrorLogged n e ∈ output (show_initial_status registry ids w))).
Proof.
  intros Hin. split.
  - destruct (for_each_turn (check_adapter registry) _ n ids w Hin) as (ids_at & w_at & H).
    destruct (with_adapter_turn registry check_loop n ids_at w_at) as [[l Hl] | [e He]].
    + left. exists l. by apply H.
    + right. exists e. by apply H.
  - destruct (for_each_turn (initial_adapter registry) _ n ids w Hin) as (ids_at & w_at & H).
    destruct (with_adapter_turn registry
                (λ adapter_name adapter incidents,
                   initial_loop adapter_name adapter (firstn 3 incidents)) n ids_at w_at)
      as [[l Hl] | [e He]].
    + left. exists l. by apply H.
    + right. exists e. by apply H.
Qed.

Lemma every_adapter_gets_its_turn_witness :
  (∃ l, Fetched "openai" l ∈ output (check_incidents Examples.failing_registry ∅ ())) ∨
  (∃ e, ErrorLogged "openai" e ∈ output (check_incidents Examples.failing_registry ∅ ())).
Proof.
  apply (every_adapter_gets_its_turn Examples.failing_registry ∅ () "openai").
  apply list_elem_of_singleton. reflexivity.
Defined.

(** ** What stands behind an announcement *)

Lemma check_loop_announcement {W : Type} (n : string) (adapter : BaseAdapter.Adapter W)
    (incidents : list dict) (ids : seen_ids) (w : W) (s : step W) (err : option string)
    (m : string) (incident : dict) (processed : list dict) :
  check_loop n adapter incidents ids w = (s, err) →
  NewUpdate m incident processed ∈ output s →
  processed ≠ [] ∧ Processing m incident ∈ output s.
Proof.
  revert ids w s err. induction incidents as [| i rest IH]; intros ids w s err.
  - intros [= <- <-] H. by apply elem_of_nil in H.
  - cbn [check_loop]. destruct (decide (get i "id" ∈ seen_of ids n)); [apply IH |].
    destruct (_process_incident adapter i w) as [[p | e] w1].
    + destruct (check_loop n adapter rest (mark_seen ids n (get i "id")) w1)
        as [s' err'] eqn:Hrest.
      intros [= <- <-]. cbn [output].
      intros [H | [H | H]%elem_of_app]%elem_of_cons; [discriminate | |].
      * destruct p as [| r p]; simpl in H; [by apply elem_of_nil in H |].
        apply list_elem_of_singleton in H. injection H as -> -> ->.
        split; [done | set_solver].
      * destruct (IH _ _ _ _ Hrest H) as [Hne Hp]. split; [done | set_solver].
    + intros [= <- <-] H. apply list_elem_of_singleton in H. discriminate.
Qed.

(** X5. Whatever a cycle announces was put together from what it fetched:
    the record list is not empty, the incident went through
    [_process_incident] in this cycle, it belongs to a list the adapter
    returned in this cycle, and its id was new when the cycle began. *)
Theorem announcement_is_backed {W : Type} (registry : AdapterRegistry.registry W)
    (ids : seen_ids) (w : W) (n : string) (incident : dict) (processed : list dict) :
  NewUpdate n incident processed ∈ output (check_incidents registry ids w) →
  processed ≠ [] ∧
  Processing n incident ∈ output (check_incidents registry ids w) ∧
  (∃ l, Fetched n l ∈ output (check_incidents registry ids w) ∧ incident ∈ l) ∧
  (get incident "id" ∉ seen_of ids n).
Proof.
  intros Hin.
  destruct (check_all_spec registry (AdapterRegistry.list_adapters registry) ids w)
    as (_ & Hnew & _).
  fold (check_incidents registry ids w) in Hnew.
  destruct (Hnew n incident (or_intror (ex_intro _ processed Hin)))
    as (l & Hl & Hmem & Hnot & _).
  assert (Hloop : processed ≠ [] ∧
            Processing n incident ∈ output (check_incidents registry ids w));
    [| destruct Hloop; eauto 10].
  unfold check_incidents in *. clear Hnew Hl Hmem Hnot l.
  revert ids w Hin. induction (AdapterRegistry.list_adapters registry) as [| m rest IH];
    intros ids w Hin.
  { by apply elem_of_nil in Hin. }
  cbn [for_each output] in *. apply elem_of_app in Hin as [Hin | Hin].
  - unfold check_adapter in *.
    destruct (with_adapter_cases registry check_loop m ids w)
      as [(e & _ & Hout) | (adapter & l & w1 & s & err & _ & _ & Hloop & _ & Hout)];
      rewrite Hout in *.
    + apply list_elem_of_singleton in Hin. discriminate.
    + assert (Hs : NewUpdate n incident processed ∈ output s).
      { apply elem_of_cons in Hin as [Hin | [Hin | Hin]%elem_of_app]; [discriminate | done |].
        destruct err; [by apply list_elem_of_singleton in Hin | by apply elem_of_nil in Hin]. }
      destruct (check_loop_announcement m adapter l ids w1 s err n incident processed Hloop Hs)
        as [Hne Hp].
      split; [done | set_solver].
  - destruct (IH _ _ Hin) as [Hne Hp]. split; [done | set_solver].
Qed.

Lemma announcement_is_backed_witness :
  Processing "openai" (Examples.json_incident "B" "Slow responses") ∈
    output (check_incidents Examples.failing_registry {[ "openai" := {[ Some "A" ]} ]} ()).
Proof.
  refine (proj1 (proj2 (announcement_is_backed Examples.failing_registry
                          {[ "openai" := {[ Some "A" ]} ]} () "openai"
                          (Examples.json_incident "B" "Slow responses")
                          [list_to_map [("group", Some "API"); ("component", Some "Chat");
                                        ("time_created", Some "2025-11-03T14:32:00Z");
                                        ("status_message", Some "Slow responses")]] _))).
  apply list_elem_of_In. vm_compute. auto.
Defined.

(** ** Adapters do not interfere *)

(** X6. With distinct names, what a cycle leaves behind for one registered
    adapter is exactly the output of that adapter's own turn, taken from the
    adapter's seen-set as the cycle found it; the turn alone decides what
    the cycle leaves in that seen-set. For a name that is not registered the
    cycle leaves no event and does not touch its seen-set. *)
Theorem adapters_do_not_interfere {W : Type} (registry : AdapterRegistry.registry W)
    (ids : seen_ids) (w : W) (n : string) :
  (NoDup (AdapterRegistry.list_adapters registry) →
   n ∈ AdapterRegistry.list_adapters registry →
   ∃ ids_at w_at,
     seen_of ids_at n = seen_of ids n ∧
     List.filter (λ ev, String.eqb (source ev) n) (output (check_incidents registry ids w)) =
       output (check_adapter registry n ids_at w_at) ∧
     seen_of (last_seen_ids (check_incidents registry ids w)) n =
       seen_of (last_seen_ids (check_adapter registry n ids_at w_at)) n) ∧
  (n ∉ AdapterRegistry.list_adapters registry →
   List.filter (λ ev, String.eqb (source ev) n) (output (check_incidents registry ids w)) = [] ∧
   seen_of (last_seen_ids (check_incidents registry ids w)) n = seen_of ids n).
Proof.
  assert (Hframe : ∀ m ids0 (w0 : W) k,
            k ≠ m → seen_of (last_seen_ids (check_adapter registry m ids0 w0)) k = seen_of ids0 k).
  { intros m ids0 w0. apply (check_adapter_spec registry m ids0 w0). }
  assert (Hsrc : ∀ m ids0 (w0 : W) ev,
            ev ∈ output (check_adapter registry m ids0 w0) → source ev = m).
  { intros m ids0 w0. apply (check_adapter_spec registry m ids0 w0). }
  split.
  - intros Hnodup Hin. by apply for_each_projection.
  - intros Hnot. split.
    + apply filter_none. intros ev Hev.
      apply (for_each_source _ Hframe Hsrc) in Hev. apply String.eqb_neq. congruence.
    + by apply for_each_frame.
Qed.

Lemma adapters_do_not_interfere_witness :
  seen_of (last_seen_ids (check_incidents Examples.failing_registry ∅ ())) "bolna" =
    seen_of (∅ : seen_ids) "bolna".
Proof.
  refine (proj2 (proj2 (adapters_do_not_interfere Examples.failing_registry ∅ () "bolna") _)).
  intros H. apply list_elem_of_singleton in H. discriminate.
Defined.

(** ** The registry *)

Section Registry.
Context {W : Type}.
Implicit Types (registry : AdapterRegistry.registry W) (adapter : BaseAdapter.Adapter W).

Lemma existsb_name registry (n : string) :
  existsb (λ entry, String.eqb (fst entry) n) registry = true ↔
  n ∈ AdapterRegistry.list_adapters registry.
Proof.
  unfold AdapterRegistry.list_adapters. rewrite existsb_exists, list_elem_of_fmap. split.
  - intros (entry & Hin & Heq). apply String.eqb_eq in Heq.
    exists entry. split; [done | by apply list_elem_of_In].
  - intros (entry & Heq & Hin). exists entry.
    split; [by apply list_elem_of_In | by apply String.eqb_eq].
Qed.

Lemma get_adapter_app registry (n m : string) adapter :
  AdapterRegistry.get_adapter (registry ++ [(n, adapter)]) m =
    match AdapterRegistry.get_adapter registry m with
    | Ok a => Ok a
    | Raise e => if String.eqb n m then Ok adapter else Raise "ValueError"
    end.
Proof.
  unfold AdapterRegistry.get_adapter.
  induction registry as [| entry registry IH]; simpl.
  - by destruct (String.eqb n m).
  - destruct (String.eqb (fst entry) m); [done | exact IH].
Qed.

Lemma get_adapter_raises registry (n : string) :
  (∃ e, AdapterRegistry.get_adapter registry n = Raise e) ↔
  n ∉ AdapterRegistry.list_adapters registry.
Proof.
  rewrite <- existsb_name. unfold AdapterRegistry.get_adapter.
  induction registry as [| entry registry IH]; simpl.
  - split; [done | eauto].
  - destruct (String.eqb (fst entry) n); simpl; [| exact IH].
    split; [by intros [e ?] | done].
Qed.

Lemma register_adapter_names registry registry' (n : string) adapter :
  AdapterRegistry.register_adapter registry n adapter = Ok registry' →
  AdapterRegistry.list_adapters registry' = AdapterRegistry.list_adapters registry ++ [n] ∧
  n ∉ AdapterRegistry.list_adapters registry.
Proof.
  unfold AdapterRegistry.register_adapter.
  destruct (existsb _ registry) eqn:E; [discriminate |]. intros [= <-]. split.
  - unfold AdapterRegistry.list_adapters. by rewrite fmap_app.
  - rewrite <- existsb_name. by rewrite E.
Qed.

Lemma register_adapter_raises registry (n : string) adapter :
  AdapterRegistry.register_adapter registry n adapter = Raise "ValueError" ↔
  n ∈ AdapterRegistry.list_adapters registry.
Proof.
  rewrite <- existsb_name. unfold AdapterRegistry.register_adapter.
  destruct (existsb _ registry); split; done.
Qed.

End Registry.

(** X7. Registering and looking up. After a successful [register_adapter],
    [get_adapter] returns the adapter under its name, every other name is
    looked up as before, the new name is the last one that [list_adapters]
    lists, and it was not listed before. *)
Theorem register_then_get {W : Type} (registry registry' : AdapterRegistry.registry W)
    (n : string) (adapter : BaseAdapter.Adapter W) :
  AdapterRegistry.register_adapter registry n adapter = Ok registry' →
  AdapterRegistry.get_adapter registry' n = Ok adapter ∧
  (∀ m, m ≠ n → AdapterRegistry.get_adapter registry' m =
                 AdapterRegistry.get_adapter registry m) ∧
  AdapterRegistry.list_adapters registry' = AdapterRegistry.list_adapters registry ++ [n] ∧
  n ∉ AdapterRegistry.list_adapters registry.
Proof.
  intros Hreg. destruct (register_adapter_names _ _ _ _ Hreg) as [Hnames Hnot].
  unfold AdapterRegistry.register_adapter in Hreg.
  destruct (existsb _ registry) eqn:E; [discriminate |]. injection Hreg as <-.
  split; [| split; [| split]].
  - rewrite get_adapter_app.
    apply get_adapter_raises in Hnot as [e ->]. by rewrite String.eqb_refl.
  - intros m Hm. rewrite get_adapter_app.
    destruct (AdapterRegistry.get_adapter registry m) as [a | e] eqn:G; [done |].
    destruct (String.eqb n m) eqn:Hnm; [apply String.eqb_eq in Hnm; congruence |].
    unfold AdapterRegistry.get_adapter in G.
    destruct (List.find _ registry); [discriminate | by injection G as <-].
  - exact Hnames.
  - exact Hnot.
Qed.

Lemma register_then_get_witness :
  AdapterRegistry.get_adapter
    (Examples.failing_registry ++ [("mirror", OpenAIAdapter.adapter Examples.detail_down)])
    "mirror" = Ok (OpenAIAdapter.adapter Examples.detail_down).
Proof.
  exact (proj1 (register_then_get Examples.failing_registry _ "mirror"
                  (OpenAIAdapter.adapter Examples.detail_down) eq_refl)).
Defined.

(** X8. The errors of the registry. [register_adapter] raises [ValueError]
    exactly when the name is already listed; [get_adapter] raises
    [ValueError] exactly when the name is not listed, and otherwise returns
    an adapter that the registry holds under that name. *)
Theorem registry_errors {W : Type} (registry : AdapterRegistry.registry W) (n : string)
    (adapter : BaseAdapter.Adapter W) :
  (AdapterRegistry.register_adapter registry n adapter = Raise "ValueError" ↔
   n ∈ AdapterRegistry.list_adapters registry) ∧
  (AdapterRegistry.get_adapter registry n = Raise "ValueError" ↔
   n ∉ AdapterRegistry.list_adapters registry) ∧
  (∀ a, AdapterRegistry.get_adapter registry n = Ok a → (n, a) ∈ registry).
Proof.
  split; [| split].
  - apply register_adapter_raises.
  - rewrite <- get_adapter_raises. split; [eauto |].
    unfold AdapterRegistry.get_adapter.
    intros [e H]. destruct (List.find _ registry); [discriminate | done].
  - intros a. unfold AdapterRegistry.get_adapter.
    destruct (List.find _ registry) as [entry |] eqn:F; [| discriminate].
    intros [= <-]. apply List.find_some in F as [Hin Heq].
    apply String.eqb_eq in Heq as <-. apply list_elem_of_In. by destruct entry.
Qed.

Lemma registry_errors_witness :
  AdapterRegistry.register_adapter Examples.failing_registry "openai"
    (OpenAIAdapter.adapter Examples.detail_down) = Raise "ValueError" ∧
  AdapterRegistry.get_adapter Examples.failing_registry "claude" = Raise "ValueError".
Proof.
  destruct (registry_errors Examples.failing_registry "openai"
              (OpenAIAdapter.adapter Examples.detail_down)) as (Hreg & _).
  destruct (registry_errors Examples.failing_registry "claude"
              (OpenAIAdapter.adapter Examples.detail_down)) as (_ & Hget & _).
  split.
  - apply Hreg. apply list_elem_of_singleton. reflexivity.
  - apply Hget. intros H. apply list_elem_of_singleton in H. discriminate.
Defined.

(** X9. A sequence of registrations that all succeed leaves a registry whose
    names are distinct and are the old names followed by the new ones, in
    the order of registration; and it does succeed when the new names are
    distinct and none of them was registered. *)
Theorem registrations_keep_names_distinct {W : Type}
    (entries : list (string * BaseAdapter.Adapter W))
    (registry : AdapterRegistry.registry W) :
  NoDup (AdapterRegistry.list_adapters registry) →
  (∀ registry', register_all entries registry = Ok registry' →
     NoDup (AdapterRegistry.list_adapters registry') ∧
     AdapterRegistry.list_adapters registry' =
       AdapterRegistry.list_adapters registry ++ entries.*1) ∧
  (NoDup (AdapterRegistry.list_adapters registry ++ entries.*1) →
   ∃ registry', register_all entries registry = Ok registry').
Proof.
  revert registry. induction entries as [| [n adapter] rest IH]; intros registry Hnodup.
  - split.
    + intros registry' [= <-]. by rewrite app_nil_r.
    + intros _. by exists registry.
  - cbn [register_all].
    destruct (AdapterRegistry.register_adapter registry n adapter) as [registry1 | e] eqn:R.
    + pose proof (register_adapter_nodup registry registry1 n adapter Hnodup R) as Hnodup1.
      destruct (register_adapter_names registry registry1 n adapter R) as (Hnames & _).
      destruct (IH registry1 Hnodup1) as [Hok Hex]. split.
      * intros registry' Hall. destruct (Hok registry' Hall) as [H1 H2].
        split; [done |]. rewrite H2, Hnames, <- app_assoc. reflexivity.
      * intros H. apply Hex. rewrite Hnames, <- app_assoc. exact H.
    + split; [discriminate |]. intros H. exfalso.
      assert (Hin : n ∈ AdapterRegistry.list_adapters registry).
      { apply (register_adapter_raises registry n adapter).
        unfold AdapterRegistry.register_adapter in *.
        destruct (existsb _ registry); [done | discriminate]. }
      apply NoDup_app in H as (_ & H & _). apply (H n Hin). simpl. set_solver.
Qed.

Lemma registrations_keep_names_distinct_witness :
  AdapterRegistry.list_adapters
    (Examples.failing_registry ++
       [("mirror", OpenAIAdapter.adapter Examples.detail_down);
        ("backup", OpenAIAdapter.adapter Examples.detail_down)]) =
    ["openai"; "mirror"; "backup"].
Proof.
  destruct (registrations_keep_names_distinct
              [("mirror", OpenAIAdapter.adapter Examples.detail_down);
               ("backup", OpenAIAdapter.adapter Examples.detail_down)]
              Examples.failing_registry (NoDup_singleton "openai")) as [Hok _].
  exact (proj2 (Hok _ eq_refl)).
Defined.

(** ** Outcomes of the cascade *)



(** ** The keyword fallbacks *)



(** ** The JSON adapter *)



(** ** What the fetch methods return *)

(** X13. The fetch methods keep to their limit. An RSS adapter without a
    feed URL raises [NotImplementedError] and leaves the world alone; an
    error of the download is passed on; otherwise both kinds of adapter
    return at most [limit] incidents, the first ones of the source in its
    order, and the incidents of an RSS adapter hold the five keys. The
    watcher asks for three, so the startup pass, which looks at the first
    three, looks at all of them. *)
Theorem fetch_keeps_to_the_limit {W : Type} (rss : RSSAdapter.Externals W)
    (self : RSSAdapter.Class W) (json : OpenAIAdapter.Externals W) (limit : nat) (w : W) :
  (¬ truthy (RSSAdapter.RSS_FEED_URL self) →
     RSSAdapter.fetch_latest_incidents_async rss self limit w =
       (Raise "NotImplementedError", w)) ∧
  (∀ url e w', RSSAdapter.RSS_FEED_URL self = Some url → truthy (Some url) →
     RSSAdapter.feed rss url w = (Raise e, w') →
     RSSAdapter.fetch_latest_incidents_async rss self limit w = (Raise e, w')) ∧
  (∀ l w', RSSAdapter.fetch_latest_incidents_async rss self limit w = (Ok l, w') →
     length l ≤ limit ∧
     (∃ url items, RSSAdapter.feed rss url w = (Ok items, w') ∧
        l = RSSParser.incident_of_item <$> firstn limit items) ∧
     ∀ incident, incident ∈ l →
       dom incident = {["id"; "title"; "link"; "pub_date"; "description"]}) ∧
  (∀ l w', OpenAIAdapter.fetch_latest_incidents_async json limit w = (Ok l, w') →
     length l ≤ limit ∧
     ∃ data, OpenAIAdapter.incidents json w = (Ok data, w') ∧ l = firstn limit data) ∧
  (∀ l w', _fetch_incidents_async (RSSAdapter.adapter rss self) w = (Ok l, w') →
     firstn 3 l = l) ∧
  (∀ l w', _fetch_incidents_async (OpenAIAdapter.adapter json) w = (Ok l, w') →
     firstn 3 l = l).
Proof.
  assert (Hrss : ∀ k l w',
            RSSAdapter.fetch_latest_incidents_async rss self k w = (Ok l, w') →
            ∃ url items, RSSAdapter.feed rss url w = (Ok items, w') ∧
              l = RSSParser.incident_of_item <$> firstn k items).
  { intros k l w'. unfold RSSAdapter.fetch_latest_incidents_async.
    destruct (RSSAdapter.RSS_FEED_URL self) as [[| c url] |]; try discriminate.
    unfold RSSParser.fetch_rss_feed_async.
    destruct (RSSAdapter.feed rss (String c url) w) as [[items | e] w1] eqn:F; [| discriminate].
    intros [= <- <-]. eauto. }
  assert (Hjson : ∀ k l w',
            OpenAIAdapter.fetch_latest_incidents_async json k w = (Ok l, w') →
            ∃ data, OpenAIAdapter.incidents json w = (Ok data, w') ∧ l = firstn k data).
  { intros k l w'. unfold OpenAIAdapter.fetch_latest_incidents_async.
    destruct (OpenAIAdapter.incidents json w) as [[data | e] w1]; [| discriminate].
    intros [= <- <-]. eauto. }
  assert (Hfirstn : ∀ (A : Type) (k : nat) (l : list A), firstn k (firstn k l) = firstn k l).
  { intros A k l. apply firstn_all2. rewrite length_firstn. lia. }
  split; [| split; [| split; [| split; [| split]]]].
  - unfold RSSAdapter.fetch_latest_incidents_async.
    destruct (RSSAdapter.RSS_FEED_URL self) as [[| c url] |]; simpl; done.
  - intros url e w' Hurl Htruthy Hfeed. unfold RSSAdapter.fetch_latest_incidents_async.
    rewrite Hurl. destruct url as [| c url]; [done |].
    unfold RSSParser.fetch_rss_feed_async. by rewrite Hfeed.
  - intros l w' Hl. destruct (Hrss limit l w' Hl) as (url & items & Hfeed & ->).
    split; [| split].
    + rewrite length_fmap, length_firstn. lia.
    + eauto.
    + intros incident (item & -> & _)%list_elem_of_fmap.
      unfold RSSParser.incident_of_item. simpl. rewrite !dom_insert_L. set_solver.
  - intros l w' Hl. destruct (Hjson limit l w' Hl) as (data & Hdata & ->).
    split; [rewrite length_firstn; lia | eauto].
  - intros l w' Hl. destruct (Hrss 3 l w' Hl) as (url & items & _ & ->).
    rewrite <- fmap_take. f_equal. apply Hfirstn.
  - intros l w' Hl. destruct (Hjson 3 l w' Hl) as (data & _ & ->). apply Hfirstn.
Qed.

Lemma fetch_keeps_to_the_limit_witness :
  let rss : RSSAdapter.Externals () :=
    {| RSSAdapter.feed := λ _ w, (Ok [], w);
       RSSAdapter.charref_sub := λ s, s;
       RSSAdapter.get_affected_services_async := λ _ _ w, (Ok [], w) |} in
  let generic : RSSAdapter.Class () :=
    {| RSSAdapter.name := "Generic"; RSSAdapter.RSS_FEED_URL := None;
       RSSAdapter.INCIDENT_PARSER_TYPE := None;
       RSSAdapter._extract_fallback_services := RSSAdapter.default_fallback |} in
  RSSAdapter.fetch_latest_incidents_async rss generic 3 () = (Raise "NotImplementedError", ()) ∧
  length [Examples.json_incident "A" "Login errors"] ≤ 1.
Proof.
  intros rss generic.
  destruct (fetch_keeps_to_the_limit rss generic Examples.detail_down 1 ())
    as (Hnone & _ & _ & Hjson & _).
  split.
  - destruct (fetch_keeps_to_the_limit rss generic Examples.detail_down 3 ()) as (H & _).
    apply H. simpl. auto.
  - exact (proj1 (Hjson [Examples.json_incident "A" "Login errors"] () eq_refl)).
Defined.

(** ** More on the timestamp *)

Lemma digit_is_digit (c : ascii) : is_digit c = false → Datetime.digit c = None.
Proof. unfold is_digit, Datetime.digit. cbv zeta. by intros ->. Qed.

Lemma fromisoformat_starts_with_digit (c : ascii) (s : string) :
  is_digit c = false → Datetime.fromisoformat (String c s) = None.
Proof.
  intros H. unfold Datetime.fromisoformat, Datetime.parse_isoformat_date.
  cbn [PyStr.take Datetime.digits]. by rewrite (digit_is_digit c H).
Qed.

(** X14. A time that does not start with a digit is printed as it is, as is
    the empty string: the publication dates of RSS feeds, which start with
    the day of the week, and the sentinels ["N/A"] and ["Unknown Time"] pass
    through; a missing time is printed as [Unknown Time]. *)
Theorem ts_keeps_what_is_no_date (c : ascii) (s : string) :
  formatter.ts None = "Unknown Time" ∧
  formatter.ts (Some "") = "" ∧
  (is_digit c = false → formatter.ts (Some (String c s)) = String c s).
Proof.
  split; [reflexivity |]. split; [reflexivity |].
  intros H. unfold formatter.ts. cbn [PyStr.replace_char].
  destruct (Ascii.eqb c "Z") eqn:E.
  - change ("+00:00" +:+ PyStr.replace_char "Z" "+00:00" s)
      with (String "+" ("00:00" +:+ PyStr.replace_char "Z" "+00:00" s)).
    by rewrite fromisoformat_starts_with_digit.
  - by rewrite fromisoformat_starts_with_digit.
Qed.

Lemma ts_keeps_what_is_no_date_witness :
  formatter.ts (Some "Mon, 03 Nov 2025 14:32:00 +0000") = "Mon, 03 Nov 2025 14:32:00 +0000" ∧
  formatter.ts (Some "N/A") = "N/A".
Proof.
  split.
  - exact (proj2 (proj2 (ts_keeps_what_is_no_date "M" "on, 03 Nov 2025 14:32:00 +0000")) eq_refl).
  - exact (proj2 (proj2 (ts_keeps_what_is_no_date "N" "/A")) eq_refl).
Defined.

(** ** Printing the records of the cascade *)





(** ** Trimming *)









(** ** What a match captures *)








(** * The incident page parsers *)

Import HTMLIncidentParser.

Lemma unique_services_spec (seen : gset string) (services : list string) (s : string) :
  s ∈ unique_services seen services ↔ s ∈ services ∧ s ∉ seen.
Proof.
  revert seen. induction services as [| x services IH]; intros seen; simpl.
  - set_solver.
  - destruct (decide (x ∈ seen)) as [Hx | Hx].
    + rewrite IH. set_solver.
    + rewrite elem_of_cons, IH. destruct (decide (s = x)) as [-> |]; set_solver.
Qed.

Lemma unique_services_nodup (seen : gset string) (services : list string) :
  NoDup (unique_services seen services).
Proof.
  revert seen. induction services as [| x services IH]; intros seen; simpl.
  - constructor.
  - destruct (decide (x ∈ seen)); [apply IH |].
    constructor; [| apply IH]. rewrite unique_services_spec. set_solver.
Qed.

Lemma is_service_not_label (s : string) :
  is_service s = true → String.eqb s label = false.
Proof.
  unfold is_service. destruct (String.eqb s label); [| done].
  rewrite !orb_true_r, andb_false_r. discriminate.
Qed.

(** The services that the two loops collect: the first service text after
    each label. *)
Lemma affected_services_spec (looking : bool) (texts : list string) (s : string) :
  s ∈ affected_services looking texts ↔
  ∃ j t, texts !! j = Some t ∧ PyStr.strip t = s ∧ is_service s = true ∧
    ((looking = true ∧
      ∀ k u, k < j → texts !! k = Some u → is_service (PyStr.strip u) = false) ∨
     (∃ i l, i < j ∧ texts !! i = Some l ∧ PyStr.strip l = label ∧
        ∀ k u, i < k < j → texts !! k = Some u → is_service (PyStr.strip u) = false)).
Proof.
  revert looking. induction texts as [| t0 rest IH]; intros looking.
  - simpl. split; [set_solver |]. intros (j & t & Hj & _). by rewrite lookup_nil in Hj.
  - cbn [affected_services].
    destruct looking.
    + destruct (is_service (PyStr.strip t0)) eqn:Hsvc.
      * rewrite (is_service_not_label _ Hsvc), elem_of_cons, IH. split.
        -- intros [-> | (j & t & Hj & Ht & Hs & [[? _] | (i & l & Hij & Hi & Hl & Hbetween)])];
             [| done |].
           ++ exists 0, t0. split_and!; try done. left. split; [done |]. intros; lia.
           ++ exists (S j), t. split_and!; try done. right.
              exists (S i), l. split_and!; [lia | done | done |].
              intros [| k] u Hk Hu; [lia |]. apply (Hbetween k u); [lia | done].
        -- intros (j & t & Hj & Ht & Hs & Hcases). destruct j as [| j].
           ++ left. simpl in Hj. by injection Hj as ->.
           ++ right. destruct Hcases as [[_ Hnone] | (i & l & Hij & Hi & Hl & Hbetween)].
              { specialize (Hnone 0 t0 ltac:(lia) eq_refl). congruence. }
              destruct i as [| i].
              { simpl in Hi. injection Hi as ->.
                apply is_service_not_label in Hsvc. rewrite Hl in Hsvc.
                by rewrite String.eqb_refl in Hsvc. }
              exists j, t. split_and!; try done. right.
              exists i, l. split_and!; [lia | done | done |].
              intros k u Hk Hu. apply (Hbetween (S k) u); [lia | done].
      * rewrite IH. split.
        -- intros (j & t & Hj & Ht & Hs & Hcases). exists (S j), t. split_and!; try done.
           destruct Hcases as [[_ Hnone] | (i & l & Hij & Hi & Hl & Hbetween)].
           ++ left. split; [done |]. intros [| k] u Hk Hu.
              ** simpl in Hu. by injection Hu as <-.
              ** apply (Hnone k u); [lia | done].
           ++ right. exists (S i), l. split_and!; [lia | done | done |].
              intros [| k] u Hk Hu; [lia |]. apply (Hbetween k u); [lia | done].
        -- intros (j & t & Hj & Ht & Hs & Hcases). destruct j as [| j].
           { simpl in Hj. injection Hj as ->. congruence. }
           exists j, t. split_and!; try done.
           destruct Hcases as [[_ Hnone] | (i & l & Hij & Hi & Hl & Hbetween)].
           ++ left. split; [done |]. intros k u Hk Hu. apply (Hnone (S k) u); [lia | done].
           ++ destruct i as [| i].
              ** left. split; [done |]. intros k u Hk Hu.
                 apply (Hbetween (S k) u); [lia | done].
              ** right. exists i, l. split_and!; [lia | done | done |].
                 intros k u Hk Hu. apply (Hbetween (S k) u); [lia | done].
    + rewrite IH. split.
      * intros (j & t & Hj & Ht & Hs & Hcases). exists (S j), t. split_and!; try done.
        right. destruct Hcases as [[Hlook Hnone] | (i & l & Hij & Hi & Hl & Hbetween)].
        -- exists 0, t0. split_and!; [lia | done | by apply String.eqb_eq |].
           intros [| k] u Hk Hu; [lia |]. apply (Hnone k u); [lia | done].
        -- exists (S i), l. split_and!; [lia | done | done |].
           intros [| k] u Hk Hu; [lia |]. apply (Hbetween k u); [lia | done].
      * intros (j & t & Hj & Ht & Hs & [[? _] | (i & l & Hij & Hi & Hl & Hbetween)]);
          [done |].
        destruct j as [| j]; [lia |]. exists j, t. split_and!; try done.
        destruct i as [| i].
        -- left. simpl in Hi. injection Hi as ->. split; [by apply String.eqb_eq |].
           intros k u Hk Hu. apply (Hbetween (S k) u); [lia | done].
        -- right. exists i, l. split_and!; [lia | done | done |].
           intros k u Hk Hu. apply (Hbetween (S k) u); [lia | done].
Qed.

(** X17 (parse_bolna_incident): the result holds no name twice, and a name
    is in it exactly when it is the stripped text of the first service text
    after some "Affected services" label, a service text being one that is
    neither empty, nor a separator, nor the label; without a label the result
    is empty. *)
Theorem bolna_page_services (texts : list string) :
  NoDup (parse_bolna_incident texts) ∧
  (∀ s, s ∈ parse_bolna_incident texts ↔
     ∃ i j l t, i < j ∧ texts !! i = Some l ∧ PyStr.strip l = label ∧
       texts !! j = Some t ∧ PyStr.strip t = s ∧ is_service s = true ∧
       ∀ k u, i < k < j → texts !! k = Some u → is_service (PyStr.strip u) = false) ∧
  ((∀ t, t ∈ texts → PyStr.strip t ≠ label) → parse_bolna_incident texts = []).
Proof.
  assert (Hspec : ∀ s, s ∈ parse_bolna_incident texts ↔
     ∃ i j l t, i < j ∧ texts !! i = Some l ∧ PyStr.strip l = label ∧
       texts !! j = Some t ∧ PyStr.strip t = s ∧ is_service s = true ∧
       ∀ k u, i < k < j → texts !! k = Some u → is_service (PyStr.strip u) = false).
  { intros s. unfold parse_bolna_incident.
    rewrite unique_services_spec, affected_services_spec. split.
    - intros [(j & t & Hj & Ht & Hs & [[? _] | (i & l & Hij & Hi & Hl & Hbetween)]) _];
        [done |].
      by exists i, j, l, t.
    - intros (i & j & l & t & Hij & Hi & Hl & Hj & Ht & Hs & Hbetween).
      split; [| set_solver]. exists j, t. split_and!; try done. right. by exists i, l. }
  split_and!; [apply unique_services_nodup | exact Hspec |].
  intros Hnone. destruct (parse_bolna_incident texts) as [| s services] eqn:E; [done |].
  destruct (proj1 (Hspec s)) as (i & j & l & t & _ & Hi & Hl & _); [set_solver |].
  destruct (Hnone l); [| done]. by eapply list_elem_of_lookup_2.
Qed.

Lemma bolna_page_services_witness :
  "Voice API" ∈ parse_bolna_incident
    ["Incident"; "Affected services"; "* * *"; " Voice API "; "Resolved"] ∧
  parse_bolna_incident ["Incident"; "Resolved"] = [].
Proof.
  split.
  - apply (proj1 (proj2 (bolna_page_services
      ["Incident"; "Affected services"; "* * *"; " Voice API "; "Resolved"]))).
    exists 1, 3, "Affected services", " Voice API ".
    split_and!; [lia | reflexivity | reflexivity | reflexivity | reflexivity | reflexivity |].
    intros k u Hk Hu. assert (k = 2) as -> by lia. simpl in Hu. by injection Hu as <-.
  - apply (proj2 (proj2 (bolna_page_services ["Incident"; "Resolved"]))).
    intros t Ht. apply list_elem_of_In in Ht. simpl in Ht.
    destruct Ht as [<- | [<- | []]]; discriminate.
Defined.

(** ** The Claude page parser *)

Lemma has_char_app (c : ascii) (a b : string) :
  PyText.has_char c (a +:+ b) = PyText.has_char c a || PyText.has_char c b.
Proof. induction a as [| x a IH]; simpl; [done |]. by rewrite IH, orb_assoc. Qed.

Lemma has_char_find (c : ascii) (s : string) :
  PyText.has_char c s = true → ∃ i, PyStr.find (String c "") s = Some i.
Proof.
  induction s as [| a s IH]; simpl; [discriminate |].
  rewrite (Ascii.eqb_sym a c). destruct (Ascii.eqb c a); simpl; [by eauto |].
  intros H. destruct (IH H) as [i ->]. simpl. eauto.
Qed.

Lemma lower_char_colon (x : ascii) : PyStr.lower_char x = ":"%char → x = ":"%char.
Proof.
  destruct x as [[] [] [] [] [] [] [] []]; vm_compute; intros H; try discriminate H;
    reflexivity.
Qed.

Lemma has_char_lower (s : string) :
  PyText.has_char ":" (PyStr.lower s) = true → PyText.has_char ":" s = true.
Proof.
  induction s as [| a s IH]; simpl; [done |].
  intros [H | H]%orb_true_iff; apply orb_true_iff; [left | right; by apply IH].
  apply Ascii.eqb_eq in H. apply lower_char_colon in H as ->. apply Ascii.eqb_refl.
Qed.

Lemma has_char_join (c : ascii) (parts : list string) :
  PyText.has_char c " " = false →
  PyText.has_char c (PyText.join " " parts) = true →
  ∃ p, p ∈ parts ∧ PyText.has_char c p = true.
Proof.
  intros Hc. induction parts as [| p parts IH]; [discriminate |].
  destruct parts as [| q parts].
  - simpl. intros H. exists p. split; [set_solver | done].
  - change (PyText.join " " (p :: q :: parts)) with (p +:+ " " +:+ PyText.join " " (q :: parts)).
    rewrite !has_char_app, Hc. simpl.
    intros [H | H]%orb_true_iff; [exists p; split; [set_solver | done] |].
    destruct (IH H) as (x & Hx & Hchar). exists x. split; [set_solver | done].
Qed.

Lemma has_char_split_whitespace_from (c : ascii) (word s w : string) :
  w ∈ PyText.split_whitespace_from word s → PyText.has_char c w = true →
  PyText.has_char c word = true ∨ PyText.has_char c s = true.
Proof.
  revert word. induction s as [| a s IH]; intros word; simpl.
  - destruct word; [set_solver |]. intros ->%list_elem_of_singleton. by left.
  - destruct (PyStr.is_space a).
    + destruct word as [| x word].
      * intros Hw Hc. destruct (IH _ Hw Hc) as [H | H]; [discriminate |].
        right. by rewrite H, orb_true_r.
      * intros [-> | Hw]%elem_of_cons Hc; [by left |].
        destruct (IH _ Hw Hc) as [H | H]; [discriminate |].
        right. by rewrite H, orb_true_r.
    + intros Hw Hc. destruct (IH _ Hw Hc) as [H | H].
      * rewrite has_char_app in H. simpl in H. rewrite orb_false_r in H.
        apply orb_true_iff in H as [H | H]; [by left |]. right. by rewrite H.
      * right. by rewrite H, orb_true_r.
Qed.

(** A text with the lead-in holds a colon, so that [t.split(":", 1)] has a
    second part. *)
Lemma lead_in_has_colon (t : string) :
  PyStr.contains "this incident affected:" (normalized t) = true →
  PyText.has_char ":" t = true.
Proof.
  intros (a & b & H)%contains_true.
  assert (Hn : PyText.has_char ":" (normalized t) = true).
  { rewrite H, !has_char_app. simpl. by rewrite orb_true_r. }
  unfold normalized in Hn. apply has_char_lower in Hn.
  apply has_char_join in Hn as (w & Hw & Hc); [| done].
  destruct (has_char_split_whitespace_from _ _ _ _ Hw Hc) as [? | ?]; done.
Qed.

Lemma split_char_no_sep (c : ascii) (s x : string) :
  x ∈ PyStr.split_char c s → PyText.has_char c x = false.
Proof.
  revert x. induction s as [| a s IH]; intros x; simpl.
  - by intros ->%list_elem_of_singleton.
  - destruct (Ascii.eqb a c) eqn:E.
    + intros [-> | Hx]%elem_of_cons; [done | by apply IH].
    + destruct (PyStr.split_char c s) as [| hd tl].
      * intros ->%list_elem_of_singleton. simpl. by rewrite E.
      * intros [-> | Hx]%elem_of_cons.
        -- simpl. rewrite E. apply IH. set_solver.
        -- apply IH. set_solver.
Qed.

Lemma has_char_lstrip (c : ascii) (s : string) :
  PyText.has_char c s = false → PyText.has_char c (PyStr.lstrip s) = false.
Proof.
  induction s as [| a s IH]; simpl; [done |].
  intros [Ha Hs]%orb_false_iff. destruct (PyStr.is_space a); [by apply IH |].
  simpl. by rewrite Ha, Hs.
Qed.

Lemma has_char_rstrip (c : ascii) (s : string) :
  PyText.has_char c s = false → PyText.has_char c (PyStr.rstrip s) = false.
Proof.
  induction s as [| a s IH]; simpl; [done |].
  intros [Ha Hs]%orb_false_iff. specialize (IH Hs).
  destruct (PyStr.rstrip s) as [| b r].
  - destruct (PyStr.is_space a); simpl; [done | by rewrite Ha].
  - cbn [PyText.has_char] in IH |- *. by rewrite Ha, IH.
Qed.

Lemma has_char_rstrip_char (c d : ascii) (s : string) :
  PyText.has_char c s = false → PyText.has_char c (PyText.rstrip_char d s) = false.
Proof.
  induction s as [| a s IH]; simpl; [done |].
  intros [Ha Hs]%orb_false_iff. specialize (IH Hs).
  destruct (PyText.rstrip_char d s) as [| b r].
  - destruct (Ascii.eqb a d); simpl; [done | by rewrite Ha].
  - cbn [PyText.has_char] in IH |- *. by rewrite Ha, IH.
Qed.

Lemma rstrip_char_idempotent (d : ascii) (s : string) :
  PyText.rstrip_char d (PyText.rstrip_char d s) = PyText.rstrip_char d s.
Proof.
  induction s as [| a s IH]; simpl; [done |].
  destruct (PyText.rstrip_char d s) as [| b r] eqn:E.
  - destruct (Ascii.eqb a d) eqn:Ea; simpl; [done | by rewrite Ea].
  - cbn [PyText.rstrip_char] in IH |- *. cbn [PyText.rstrip_char]. by rewrite IH.
Qed.

Lemma services_after_colon_ok (t : string) :
  PyText.has_char ":" t = true →
  ∃ services, services_after_colon t = Ok services ∧
    ∀ s, s ∈ services →
      s ≠ "" ∧ PyText.has_char "," s = false ∧ PyText.rstrip_char "." s = s.
Proof.
  intros [i Hi]%has_char_find. unfold services_after_colon, PyStr.split_once.
  rewrite Hi. eexists. split; [reflexivity |].
  intros s Hs. apply list_elem_of_In, filter_In in Hs as [Hx Hne].
  apply list_elem_of_In, list_elem_of_fmap in Hx as (x & -> & Hx).
  split_and!.
  - intros E. by rewrite E in Hne.
  - apply has_char_rstrip_char, has_char_rstrip, has_char_lstrip.
    by eapply split_char_no_sep.
  - apply rstrip_char_idempotent.
Qed.

Lemma parse_claude_incident_ok (text_elements : list string) (h1 : option string) :
  ∃ services, parse_claude_incident text_elements h1 = Ok services.
Proof.
  induction text_elements as [| t rest IH]; simpl.
  - destruct h1; eauto.
  - destruct (PyStr.contains _ (normalized t)) eqn:E; [| done].
    destruct (services_after_colon_ok t (lead_in_has_colon t E)) as (services & H & _).
    eauto.
Qed.





(** X19 (get_affected_services_async): the only failure is the download's,
    which is passed on; after a download the result is a list, of distinct
    names for the Bolna parser and of exactly one name for a parser type that
    is neither "bolna" nor "claude"; the parser type is read without regard
    to case; and the world is left as the download left it. *)
Theorem page_services_fail_only_on_download {W : Type}
    (fetch_incident_page_async : string → eff W string) (soup : Soup)
    (url parser_type : string) (w : W) :
  (∀ e w', fetch_incident_page_async url w = (Raise e, w') →
     get_affected_services_async fetch_incident_page_async soup url parser_type w =
       (Raise e, w')) ∧
  (∀ html w', fetch_incident_page_async url w = (Ok html, w') →
     ∃ services,
       get_affected_services_async fetch_incident_page_async soup url parser_type w =
         (Ok services, w') ∧
       (PyStr.lower parser_type = "bolna" → NoDup services) ∧
       (PyStr.lower parser_type ≠ "bolna" → PyStr.lower parser_type ≠ "claude" →
        length services = 1)) ∧
  (∀ parser_type', PyStr.lower parser_type' = PyStr.lower parser_type →
     get_affected_services_async fetch_incident_page_async soup url parser_type' w =
       get_affected_services_async fetch_incident_page_async soup url parser_type w).
Proof.
  unfold get_affected_services_async. split_and!.
  - by intros e w' ->.
  - intros html w' ->.
    destruct (String.eqb (PyStr.lower parser_type) "bolna") eqn:Hb.
    { apply String.eqb_eq in Hb. eexists. split_and!; [reflexivity | |].
      - intros _. apply unique_services_nodup.
      - done. }
    apply String.eqb_neq in Hb.
    destruct (String.eqb (PyStr.lower parser_type) "claude") eqn:Hc.
    { apply String.eqb_eq in Hc.
      destruct (parse_claude_incident_ok (find_all_strings soup html) (find_h1 soup html))
        as [services ->].
      exists services. split_and!; [reflexivity | done | done]. }
    destruct (find_h1 soup html); eexists; (split_and!; [reflexivity | done | done]).
  - by intros parser_type' ->.
Qed.

Lemma page_services_fail_only_on_download_witness :
  get_affected_services_async (W := unit) (λ _ w, (Raise "ClientError", w))
    {| stripped_strings := λ _, []; find_all_strings := λ _, []; find_h1 := λ _, None |}
    "https://status.bolna.ai/incident/1" "bolna" () = (Raise "ClientError", ()) ∧
  ∃ services,
    get_affected_services_async (W := unit) (λ _ w, (Ok "<h1> Outage </h1>", w))
      {| stripped_strings := λ _, ["Outage"]; find_all_strings := λ _, [" Outage "];
         find_h1 := λ _, Some " Outage " |}
      "https://example.org/incident/1" "Generic" () = (Ok services, ()) ∧
    length services = 1.
Proof.
  split.
  - by apply (proj1 (page_services_fail_only_on_download (W := unit)
      (λ _ w, (Raise "ClientError", w))
      {| stripped_strings := λ _, []; find_all_strings := λ _, []; find_h1 := λ _, None |}
      "https://status.bolna.ai/incident/1" "bolna" ())).
  - destruct (proj1 (proj2 (page_services_fail_only_on_download (W := unit)
      (λ _ w, (Ok "<h1> Outage </h1>", w))
      {| stripped_strings := λ _, ["Outage"]; find_all_strings := λ _, [" Outage "];
         find_h1 := λ _, Some " Outage " |}
      "https://example.org/incident/1" "Generic" ())) "<h1> Outage </h1>" () eq_refl)
      as (services & H & _ & Hone).
    exists services. split; [exact H |]. apply Hone; vm_compute; discriminate.
Defined.


